(** * Asset discovery and naming in go-bindata ([convert.go])

    A shallow embedding of [safeFunctionName], [findFiles] and the
    discovery loop of [Translate], together with the properties their
    documentation states.

    Conventions.
    - A Go [string] is a sequence of bytes: Rocq's [string] of 8-bit
      [ascii].
    - Go's [int] is taken at its 64-bit width, with wrap-around.
    - Paths follow the Unix rules of [path/filepath]: the separator is
      ['/'], so [filepath.ToSlash] is the identity.
    - [knownFuncs] and [visitedPaths] are Go maps shared by every call;
      they are threaded through as finite maps. *)

From Stdlib Require Import ZArith NArith Ascii String List Bool Lia.
From Stdlib Require Import DecimalString DecimalZ Sorted Permutation.
From stdpp Require Import gmap strings.

Open Scope string_scope.
Open Scope Z_scope.

(** ** Outcomes

    [Ret] is a normal return, [Panic] a Go run-time panic, [OutOfFuel]
    marks a recursion cut off by the fuel of the model. *)

Inductive outcome (A : Type) : Type :=
| Ret (a : A)
| Panic
| OutOfFuel.
Arguments Ret {A} a.
Arguments Panic {A}.
Arguments OutOfFuel {A}.

Global Instance outcome_ret : MRet outcome := fun A a => Ret a.
Global Instance outcome_bind : MBind outcome := fun A B k m =>
  match m with
  | Ret a => k a
  | Panic => Panic
  | OutOfFuel => OutOfFuel
  end.

Global Instance outcome_fmap : FMap outcome := fun A B f m =>
  match m with
  | Ret a => Ret (f a)
  | Panic => Panic
  | OutOfFuel => OutOfFuel
  end.

(** ** Bytes and strings *)

Definition byte_between (lo hi c : ascii) : bool :=
  (N_of_ascii lo <=? N_of_ascii c)%N && (N_of_ascii c <=? N_of_ascii hi)%N.

Definition is_lower (c : ascii) : bool := byte_between "a" "z" c.
Definition is_upper (c : ascii) : bool := byte_between "A" "Z" c.
Definition is_digit (c : ascii) : bool := byte_between "0" "9" c.

(** [c < utf8.RuneSelf] *)
Definition byte_is_ascii (c : ascii) : bool := (N_of_ascii c <? 128)%N.

Definition lower_byte (c : ascii) : ascii :=
  if is_upper c then ascii_of_N (N_of_ascii c + 32) else c.
Definition upper_byte (c : ascii) : ascii :=
  if is_lower c then ascii_of_N (N_of_ascii c - 32) else c.

Fixpoint string_forallb (p : ascii -> bool) (s : string) : bool :=
  match s with
  | EmptyString => true
  | String c s' => p c && string_forallb p s'
  end.

Fixpoint string_map (f : ascii -> ascii) (s : string) : string :=
  match s with
  | EmptyString => EmptyString
  | String c s' => String (f c) (string_map f s')
  end.

Definition isASCII (s : string) : bool := string_forallb byte_is_ascii s.

(** [len(s)] *)
Definition len (s : string) : nat := String.length s.

(** [s[n:]] for [n <= len(s)] *)
Fixpoint string_drop (n : nat) (s : string) : string :=
  match n, s with
  | O, _ => s
  | S n', String _ s' => string_drop n' s'
  | S _, EmptyString => EmptyString
  end.

(** [strings.HasPrefix(s, p)] *)
Fixpoint HasPrefix (s p : string) {struct p} : bool :=
  match p, s with
  | EmptyString, _ => true
  | String a p', String b s' => if ascii_dec a b then HasPrefix s' p' else false
  | String _ _, EmptyString => false
  end.

(** [len(s) > 0 && s[0] == '/'] *)
Definition leading_slash (s : string) : bool :=
  match s with
  | String c _ => if ascii_dec c "/" then true else false
  | EmptyString => false
  end.

(** Go's [<] on strings: byte-wise lexicographic order. *)
Definition string_lt (a b : string) : bool := String.ltb a b.

(** ** 64-bit [int] and [%d] *)

Definition int_wrap (z : Z) : Z := (z + 2 ^ 63) mod 2 ^ 64 - 2 ^ 63.
Definition int_add (a b : Z) : Z := int_wrap (a + b).

(** [fmt.Sprintf("%d", z)] *)
Definition itoa (z : Z) : string := NilZero.string_of_int (Z.to_int z).

Section Sanitizer.

(** [strings.ToLower] and [strings.ToUpper] handle ASCII-only strings
    byte by byte and send every other string through
    [strings.Map(unicode.ToLower, s)] (resp. [unicode.ToUpper]).  The
    Unicode tables are not part of this repository; the two maps are
    parameters. *)
Variable unicode_MapToLower : string -> string.
Variable unicode_MapToUpper : string -> string.

Definition ToLower (s : string) : string :=
  if isASCII s then string_map lower_byte s else unicode_MapToLower s.

Definition ToUpper (s : string) : string :=
  if isASCII s then string_map upper_byte s else unicode_MapToUpper s.

(** [regFuncName = regexp.MustCompile(`[^a-zA-Z0-9_]`)] matched against
    the one-byte slice [[]byte{b}].  A byte of 0x80 and above is not
    valid UTF-8 on its own; the regexp engine reads it as U+FFFD, which
    the negated class matches. *)
Definition ident_byte (b : ascii) : bool :=
  is_lower b || is_upper b || is_digit b || (if ascii_dec b "_" then true else false).

Definition regFuncName_Match (b : ascii) : bool := negb (ident_byte b).

(** [string(inBytes[i])]: the UTF-8 encoding of the code point whose
    number is the byte's value. *)
Definition string_of_byte (b : ascii) : string :=
  let n := N_of_ascii b in
  if (n <? 128)%N then String b EmptyString
  else String (ascii_of_N (192 + n / 64)) (String (ascii_of_N (128 + n mod 64)) EmptyString).

(** The loop of [safeFunctionName] over [inBytes], from index [i] on,
    with the flag [toUpper]; the result is what is appended to
    [outBytes]. *)
Fixpoint scan (toUpper : bool) (inBytes : string) : string :=
  match inBytes with
  | EmptyString => EmptyString
  | String b rest =>
      if regFuncName_Match b then scan true rest
      else if toUpper then ToUpper (string_of_byte b) ++ scan false rest
      else String b (scan false rest)
  end.

(** [unicode.IsDigit(rune(b))] for a byte: in Latin-1 the digits are
    ['0'..'9']. *)
Definition unicode_IsDigit_byte (b : ascii) : bool := is_digit b.

(** The name before the look-up in [knownFuncs]; [name[0]] panics on an
    empty [name]. *)
Definition candidate (name : string) : outcome string :=
  let name := ToLower name in
  let name := scan false name in
  match name with
  | EmptyString => Panic
  | String c _ => Ret (if unicode_IsDigit_byte c then "_" ++ name else name)
  end.

(** The look-up in [knownFuncs] and its update. *)
Definition disambiguate (name : string) (knownFuncs : gmap string Z)
  : string * gmap string Z :=
  match knownFuncs !! name with
  | Some num => (name ++ itoa num, <[name := int_add num 1]> knownFuncs)
  | None => (name, <[name := 2]> knownFuncs)
  end.

Definition safeFunctionName (name : string) (knownFuncs : gmap string Z)
  : outcome (string * gmap string Z) :=
  name ← candidate name;
  Ret (disambiguate name knownFuncs).

End Sanitizer.

(** ** Paths: [path/filepath] on Unix

    [filepath.Clean] is modelled by its documented rules, on the list of
    the path's elements: empty elements and ["."] are dropped, [".."]
    removes the element before it, a [".."] that would climb above the
    root is dropped, and the empty result is ["."]. *)

Fixpoint split_slash (s : string) : list string :=
  match s with
  | EmptyString => [EmptyString]
  | String c s' =>
      if ascii_dec c "/" then EmptyString :: split_slash s'
      else match split_slash s' with
           | w :: ws => String c w :: ws
           | [] => [String c EmptyString]
           end
  end.

Fixpoint join_slash (l : list string) : string :=
  match l with
  | [] => ""
  | [w] => w
  | w :: ws => w ++ "/" ++ join_slash ws
  end.

Definition IsAbs (p : string) : bool := HasPrefix p "/".

(** One element of the path, against the elements kept so far (the
    last one first). *)
Definition clean_step (rooted : bool) (kept : list string) (c : string)
  : list string :=
  if decide (c = "") then kept
  else if decide (c = ".") then kept
  else if decide (c = "..") then
    match kept with
    | top :: below => if decide (top = "..") then c :: kept else below
    | [] => if rooted then [] else [c]
    end
  else c :: kept.

Definition clean_elems (rooted : bool) (l : list string) : list string :=
  rev (fold_left (clean_step rooted) l []).

Definition Clean (p : string) : string :=
  let rooted := IsAbs p in
  let body := join_slash (clean_elems rooted (split_slash p)) in
  if rooted then "/" ++ body
  else if decide (body = "") then "." else body.

(** [filepath.Join(a, b)] *)
Definition Join (a b : string) : string :=
  if decide (a = "") then (if decide (b = "") then "" else Clean b)
  else Clean (a ++ "/" ++ b).

(** [filepath.Dir]: the path up to its last separator, cleaned. *)
Definition upto_last_slash (p : string) : string :=
  match rev (split_slash p) with
  | _ :: (_ :: _) as before => join_slash (rev before) ++ "/"
  | _ => ""
  end.

Definition Dir (p : string) : string := Clean (upto_last_slash p).

Definition ToSlash (p : string) : string := p.

(** ** The operating system

    What [findFiles] asks of package [os]; an error is its message. *)

Definition error : Type := string.

Inductive result (A : Type) : Type :=
| OK (a : A)
| Err (e : error).
Arguments OK {A} a.
Arguments Err {A} e.

(** [os.FileInfo]: [Name()], [IsDir()] and the symlink bit of [Mode()]. *)
Record FileInfo : Type := mkFileInfo {
  fi_Name : string;
  fi_IsDir : bool;
  fi_ModeSymlink : bool
}.

Record OS : Type := mkOS {
  Getwd : result string;
  (** [os.Stat]: follows symbolic links *)
  Stat : string -> result FileInfo;
  (** [os.Open] followed by [fd.Readdir(0)]: the entries as [Lstat]
      shows them, in the order the file system lists them *)
  Readdir : string -> result (list FileInfo);
  Readlink : string -> result string
}.

(** [filepath.Abs]: the string is [""] when [Getwd] fails. *)
Definition Abs (os : OS) (p : string) : string * option error :=
  if IsAbs p then (Clean p, None)
  else match Getwd os with
       | OK wd => (Join wd p, None)
       | Err e => ("", Some e)
       end.

(** [sort.Sort(byName(list))]: [Less] compares the names as strings.
    The entries of one directory have distinct names, so the sorted
    order is unique and the algorithm does not matter. *)
Definition byName_Less (a b : FileInfo) : bool := string_lt (fi_Name a) (fi_Name b).

Fixpoint sort_insert (x : FileInfo) (l : list FileInfo) : list FileInfo :=
  match l with
  | [] => [x]
  | y :: l' => if byName_Less y x then y :: sort_insert x l' else x :: l
  end.

Definition sort_byName (l : list FileInfo) : list FileInfo :=
  fold_right sort_insert [] l.

(** ** The catalog and the walker *)

Record Asset : Type := mkAsset {
  Path : string;
  Name : string;
  Func : string
}.

(** [*regexp.Regexp], as far as [MatchString] shows it *)
Record Regexp : Type := mkRegexp { MatchString : string -> bool }.

(** What the calls of one run share: [*toc], [knownFuncs],
    [visitedPaths]. *)
Record State : Type := mkState {
  toc : list Asset;
  knownFuncs : gmap string Z;
  visitedPaths : gmap string bool
}.

Definition mark_visited (p : string) (st : State) : State :=
  mkState (toc st) (knownFuncs st) (<[p := true]> (visitedPaths st)).

Definition is_visited (p : string) (st : State) : bool :=
  match visitedPaths st !! p with Some _ => true | None => false end.

(** The type of [findFiles] once its other arguments are fixed: from
    the directory and the shared state to the state and the error. *)
Definition walker : Type := string -> State -> outcome (State * option error).

Section Walker.

Variable unicode_MapToLower : string -> string.
Variable unicode_MapToUpper : string -> string.
Variable os : OS.

(** Lines 169-175: does some pattern match the path? *)
Definition ignoring (ignore : list Regexp) (path : string) : bool :=
  existsb (fun re => MatchString re path) ignore.

(** Lines 204-213: the logical name of a regular file. *)
Definition logical_name (dir prefix : string) (file : FileInfo)
    (assetName : string) : string :=
  let name :=
    if HasPrefix assetName prefix then string_drop (len prefix) assetName
    else Join dir (fi_Name file) in
  if leading_slash name then string_drop 1 name else name.

(** Lines 204-225: a regular file.  The result is the state and the
    error returned, if any. *)
Definition add_file (dir prefix : string) (file : FileInfo)
    (assetPath assetName : string) (st : State)
  : outcome (State * option error) :=
  let name := logical_name dir prefix file assetName in
  if decide (name = "") then Ret (st, Some ("Invalid file: " ++ assetPath))
  else
    '(func, known) ← safeFunctionName unicode_MapToLower unicode_MapToUpper
                        name (knownFuncs st);
    let st := mkState (toc st) known (visitedPaths st) in
    match Abs os assetPath with
    | (_, Some e) => Ret (st, Some e)
    | (path, None) =>
        Ret (mkState (toc st ++ [mkAsset path name func])
                     (knownFuncs st) (visitedPaths st), None)
    end.

(** The body of the loop of line 164, for one entry.  [recur] is the
    recursive call [findFiles(_, prefix, recursive, toc, ignore,
    knownFuncs, visitedPaths)]; lines 184 and 199 drop the error it
    returns.  The second component of the result is the error the body
    returns with; [None] is [continue] or the end of the body. *)
Definition visit (recur : walker)
    (dir dirpath prefix : string) (recursive : bool) (ignore : list Regexp)
    (file : FileInfo) (st : State)
  : outcome (State * option error) :=
  let assetPath := Join dirpath (fi_Name file) in
  let assetName := ToSlash assetPath in
  if ignoring ignore assetPath then Ret (st, None)
  else if fi_IsDir file then
    if recursive then
      let recursivePath := Join dir (fi_Name file) in
      '(st, _) ← recur recursivePath (mark_visited assetPath st);
      Ret (st, None)
    else Ret (st, None)
  else if fi_ModeSymlink file then
    match Readlink os assetPath with
    | Err e => Ret (st, Some e)
    | OK linkPath =>
        let resolved :=
          if IsAbs linkPath then (linkPath, None)
          else Abs os (dirpath ++ "/" ++ linkPath) in
        match resolved with
        | (_, Some e) => Ret (st, Some e)
        | (linkPath, None) =>
            if is_visited linkPath st then Ret (st, None)
            else
              '(st, _) ← recur assetPath (mark_visited linkPath st);
              Ret (st, None)
        end
    end
  else add_file dir prefix file assetPath assetName st.

(** The loop of line 164. *)
Fixpoint walk (recur : walker)
    (dir dirpath prefix : string) (recursive : bool) (ignore : list Regexp)
    (list : list FileInfo) (st : State)
  : outcome (State * option error) :=
  match list with
  | [] => Ret (st, None)
  | file :: rest =>
      '(st, err) ← visit recur dir dirpath prefix recursive ignore file st;
      match err with
      | Some e => Ret (st, Some e)
      | None => walk recur dir dirpath prefix recursive ignore rest st
      end
  end.

(** Lines 129-134 *)
Definition absolutize (dir prefix : string) : string * string :=
  if (0 <? len prefix)%nat then (fst (Abs os dir), ToSlash (fst (Abs os prefix)))
  else (dir, prefix).

Fixpoint findFiles (fuel : nat) (dir prefix : string) (recursive : bool)
    (ignore : list Regexp) (st : State)
  : outcome (State * option error) :=
  match fuel with
  | O => OutOfFuel
  | S fuel =>
      let '(dirpath, prefix) := absolutize dir prefix in
      match Stat os dirpath with
      | Err e => Ret (st, Some e)
      | OK fi =>
          let recur := fun d s => findFiles fuel d prefix recursive ignore s in
          if negb (fi_IsDir fi) then
            walk recur dir (Dir dirpath) prefix recursive ignore [fi] st
          else
            let st := mark_visited dirpath st in
            match Readdir os dirpath with
            | Err e => Ret (st, Some e)
            | OK list =>
                walk recur dir dirpath prefix recursive ignore
                     (sort_byName list) st
            end
      end
  end.

(** [Translate], lines 23-39: one [findFiles] per input, in order, on
    one [toc], one [knownFuncs] and one [visitedPaths].  The result is
    the error that line 37 returns, or else the [toc] that the rest of
    [Translate] writes out; on an error [toc], a local variable, is
    lost.  The configuration check of line 26 and the code emission
    after line 39 are not modelled. *)
Record InputConfig : Type := mkInput {
  input_Path : string;
  input_Recursive : bool
}.

Fixpoint Translate_loop (fuel : nat) (prefix : string) (ignore : list Regexp)
    (inputs : list InputConfig) (st : State)
  : outcome (State * option error) :=
  match inputs with
  | [] => Ret (st, None)
  | input :: rest =>
      '(st, err) ← findFiles fuel (input_Path input) prefix
                      (input_Recursive input) ignore st;
      match err with
      | Some e => Ret (st, Some e)
      | None => Translate_loop fuel prefix ignore rest st
      end
  end.

Definition empty_state : State := mkState [] ∅ ∅.

Definition Translate (fuel : nat) (prefix : string) (ignore : list Regexp)
    (inputs : list InputConfig)
  : outcome (result (list Asset)) :=
  '(st, err) ← Translate_loop fuel prefix ignore inputs empty_state;
  match err with
  | Some e => Ret (Err e)
  | None => Ret (OK (toc st))
  end.

End Walker.

(** The operating system that does not list the entries matching an
    ignore pattern. *)
Definition kept (ignore : list Regexp) (dirpath : string) (file : FileInfo) : bool :=
  negb (ignoring ignore (Join dirpath (fi_Name file))).

Definition hide (ignore : list Regexp) (os : OS) : OS :=
  mkOS (Getwd os) (Stat os)
       (fun dirpath =>
          match Readdir os dirpath with
          | OK list => OK (List.filter (kept ignore dirpath) list)
          | Err e => Err e
          end)
       (Readlink os).

(** ** A file system

    An instance of [OS]: a finite tree of directories, regular files and
    symbolic links, with the path resolution of POSIX.  A resolution
    follows at most [maxlinks] symbolic links (Linux: 40) and fails with
    ELOOP beyond. *)

Module TreeFS.

#[warnings="-register-all"]
Inductive node : Type :=
| File
| Directory (entries : list (string * node))
| Symlink (target : string).

Fixpoint lookup_entry (name : string) (entries : list (string * node))
  : option node :=
  match entries with
  | [] => None
  | (n, x) :: rest => if decide (n = name) then Some x else lookup_entry name rest
  end.

(** The node at a canonical path: a list of names from the root, none of
    them a symbolic link. *)
Fixpoint node_at (n : node) (path : list string) : option node :=
  match path with
  | [] => Some n
  | c :: rest =>
      match n with
      | Directory entries =>
          match lookup_entry c entries with
          | Some m => node_at m rest
          | None => None
          end
      | _ => None
      end
  end.

Definition ENOENT : error := "no such file or directory".
Definition ENOTDIR : error := "not a directory".
Definition ELOOP : error := "too many levels of symbolic links".
Definition EINVAL : error := "invalid argument".

(** Resolution of the elements [rest] from the canonical directory
    [cur].  [follow_last] tells whether a symbolic link in the last
    position is followed ([Stat]) or returned ([Lstat], [Readlink]). *)
Fixpoint resolve (root : node) (links : nat) (follow_last : bool)
    (cur rest : list string) {struct links} : result (list string) :=
  (fix go (cur rest : list string) {struct rest} : result (list string) :=
     match rest with
     | [] => OK cur
     | c :: rest' =>
         match node_at root cur with
         | Some (Directory entries) =>
             if decide (c = "") then go cur rest'
             else if decide (c = ".") then go cur rest'
             else if decide (c = "..") then go (removelast cur) rest'
             else
               match lookup_entry c entries with
               | None => Err ENOENT
               | Some (Symlink target) =>
                   if negb follow_last && (if rest' is [] then true else false)
                   then OK (cur ++ [c])%list
                   else
                     match links with
                     | O => Err ELOOP
                     | S links' =>
                         resolve root links' follow_last
                           (if IsAbs target then [] else cur)
                           (split_slash target ++ rest')%list
                     end
               | Some _ => go (cur ++ [c])%list rest'
               end
         | Some _ => Err ENOTDIR
         | None => Err ENOENT
         end
     end) cur rest.

Record fs : Type := mkFs {
  fs_root : node;
  fs_cwd : list string;
  fs_maxlinks : nat
}.

Definition locate (f : fs) (follow_last : bool) (path : string)
  : result (list string) :=
  if decide (path = "") then Err ENOENT
  else resolve (fs_root f) (fs_maxlinks f) follow_last
         (if IsAbs path then [] else fs_cwd f) (split_slash path).

(** [basename] of package [os]: the name [Stat] reports. *)
Definition basename (path : string) : string :=
  match List.filter (fun c => bool_decide (c <> "")) (split_slash path) with
  | [] => if IsAbs path then "/" else path
  | l => List.last l ""
  end.

Definition lstat_entry (e : string * node) : FileInfo :=
  match snd e with
  | File => mkFileInfo (fst e) false false
  | Directory _ => mkFileInfo (fst e) true false
  | Symlink _ => mkFileInfo (fst e) false true
  end.

Definition fs_Stat (f : fs) (path : string) : result FileInfo :=
  match locate f true path with
  | Err e => Err ("stat " ++ path ++ ": " ++ e)
  | OK canon =>
      match node_at (fs_root f) canon with
      | Some (Directory _) => OK (mkFileInfo (basename path) true false)
      | Some _ => OK (mkFileInfo (basename path) false false)
      | None => Err ("stat " ++ path ++ ": " ++ ENOENT)
      end
  end.

Definition fs_Readdir (f : fs) (path : string) : result (list FileInfo) :=
  match locate f true path with
  | Err e => Err ("open " ++ path ++ ": " ++ e)
  | OK canon =>
      match node_at (fs_root f) canon with
      | Some (Directory entries) => OK (map lstat_entry entries)
      | Some _ => Err ("readdirent " ++ path ++ ": " ++ ENOTDIR)
      | None => Err ("open " ++ path ++ ": " ++ ENOENT)
      end
  end.

Definition fs_Readlink (f : fs) (path : string) : result string :=
  match locate f false path with
  | Err e => Err ("readlink " ++ path ++ ": " ++ e)
  | OK canon =>
      match node_at (fs_root f) canon with
      | Some (Symlink target) => OK target
      | Some _ => Err ("readlink " ++ path ++ ": " ++ EINVAL)
      | None => Err ("readlink " ++ path ++ ": " ++ ENOENT)
      end
  end.

Definition to_OS (f : fs) : OS :=
  mkOS (OK ("/" ++ join_slash (fs_cwd f)))
       (fs_Stat f) (fs_Readdir f) (fs_Readlink f).

End TreeFS.

(** ** The sanitizer as its documentation words it

    "Copy only the characters of [a-z0-9_]; each maximal run of other
    characters is not copied but makes the next copied character upper
    case."  [runs] cuts a string into its maximal runs of characters
    inside and outside the class. *)

Definition spec_class (c : ascii) : bool :=
  is_lower c || is_digit c || (if ascii_dec c "_" then true else false).

Fixpoint runs (s : string) : list (bool * string) :=
  match s with
  | EmptyString => []
  | String c s' =>
      match runs s' with
      | (b, r) :: rs =>
          if Bool.eqb b (spec_class c) then (b, String c r) :: rs
          else (spec_class c, String c EmptyString) :: (b, r) :: rs
      | [] => [(spec_class c, String c EmptyString)]
      end
  end.

Definition capitalize (s : string) : string :=
  match s with
  | EmptyString => EmptyString
  | String c r => String (upper_byte c) r
  end.

(** A run after the first one: a run inside the class follows a run
    outside it, and starts upper-cased. *)
Definition emit_later (r : bool * string) : string :=
  if fst r then capitalize (snd r) else "".

Fixpoint concat_strings (l : list string) : string :=
  match l with
  | [] => ""
  | w :: ws => w ++ concat_strings ws
  end.

Definition spec_copy (s : string) : string :=
  match runs s with
  | [] => ""
  | (b, r) :: rs => (if b then r else "") ++ concat_strings (map emit_later rs)
  end.

Definition spec_underscore (s : string) : string :=
  match s with
  | String c _ => if is_digit c then "_" ++ s else s
  | EmptyString => s
  end.

(** ** Calls in sequence on one [knownFuncs] *)

Fixpoint sanitize_all (toLowerU toUpperU : string -> string)
    (names : list string) (knownFuncs : gmap string Z)
  : outcome (list string * gmap string Z) :=
  match names with
  | [] => Ret ([], knownFuncs)
  | name :: rest =>
      '(f, knownFuncs) ← safeFunctionName toLowerU toUpperU name knownFuncs;
      '(fs, knownFuncs) ← sanitize_all toLowerU toUpperU rest knownFuncs;
      Ret (f :: fs, knownFuncs)
  end.

(** What the documentation promises for a name of base [b] after the
    bases [prev]: the bare base the first time, then the suffixes 2, 3,
    4, ... *)
Definition expected_id (prev : list string) (b : string) : string :=
  match count_occ string_dec prev b with
  | O => b
  | S k => b ++ itoa (Z.of_nat (S (S k)))
  end.

Fixpoint expected_ids (prev bases : list string) : list string :=
  match bases with
  | [] => []
  | b :: rest => expected_id prev b :: expected_ids (b :: prev) rest
  end.

Definition expected_counter (prev : list string) (b : string) : option Z :=
  match count_occ string_dec prev b with
  | O => None
  | S k => Some (Z.of_nat (S (S k)))
  end.

(** ** Notions used in the statements *)

(** The path a symbolic link is looked up under in [visitedPaths]
    (lines 189-196). *)
Definition link_key (os : OS) (dirpath : string) (file : FileInfo)
  : result string :=
  match Readlink os (Join dirpath (fi_Name file)) with
  | Err e => Err e
  | OK linkPath =>
      if IsAbs linkPath then OK linkPath
      else match Abs os (dirpath ++ "/" ++ linkPath) with
           | (_, Some e) => Err e
           | (p, None) => OK p
           end
  end.

(** A walker keeps the property [P] of the state. *)
Definition keeps (P : State -> Prop) (w : walker) : Prop :=
  forall d s s' e, w d s = Ret (s', e) -> P s -> P s'.

(** No two separators in a row. *)
Fixpoint no_double_slash (s : string) : bool :=
  match s with
  | EmptyString => true
  | String c r => negb (leading_slash s && leading_slash r) && no_double_slash r
  end.

Definition no_slash (s : string) : bool :=
  string_forallb (fun c => if ascii_dec c "/" then false else true) s.

(** An element that [Clean] keeps: not empty, no separator inside. *)
Definition is_elem (w : string) : Prop := w <> "" /\ no_slash w = true.

(** [a] may stand before [b]: [b] is not less than [a]. *)
Definition name_le (a b : FileInfo) : Prop := byName_Less b a = false.

(** The name of an asset is not empty and has no leading separator. *)
Definition good_name (a : Asset) : Prop :=
  Name a <> "" /\ leading_slash (Name a) = false.

(** ** Example file systems *)

Module Examples.
Import TreeFS.

Definition linux (root : node) (cwd : list string) : fs := mkFs root cwd 40.

(** A directory [/data] with [b.txt], [a.txt] and [sub/c.txt], listed
    in the order [entries]; the working directory is [/data]. *)
Definition scenario_entries : list (string * node) :=
  [("b.txt", File); ("a.txt", File); ("sub", Directory [("c.txt", File)])].

Definition scenario (entries : list (string * node)) : fs :=
  linux (Directory [("data", Directory entries)]) ["data"].

(** The six orders in which the directory can list its entries. *)
Definition scenario_orders : list (list (string * node)) :=
  match scenario_entries with
  | [b; a; sub] =>
      [[b; a; sub]; [b; sub; a]; [a; b; sub]; [a; sub; b]; [sub; a; b]; [sub; b; a]]
  | _ => []
  end.

(** [/d] with three files whose names differ only in punctuation. *)
Definition collide : fs :=
  linux (Directory [("d", Directory
           [("a-b", File); ("a-b2", File); ("a.b", File)])]) [].

(** [/data] with a file, and a subdirectory that holds a symbolic link
    to a missing file and a regular file. *)
Definition dangling : fs :=
  linux (Directory [("data", Directory
           [("a.txt", File);
            ("sub", Directory [("dead", Symlink "missing"); ("z.txt", File)])])])
        [].

(** [/cwd/r] with a file and a subdirectory [a] whose entry [loop]
    points back to [r]; the working directory is [/cwd]. *)
Definition cycle_tree : node :=
  Directory [("cwd", Directory [("r", Directory
    [("f.txt", File); ("a", Directory [("loop", Symlink "..")])])])].

Definition cycle (maxlinks : nat) : fs := mkFs cycle_tree ["cwd"] maxlinks.



Definition icons : fs :=
  linux (Directory [("data", Directory
           [("icons", Directory [("x.png", File)])])]) [].

End Examples.

(** A stand-in for the Unicode maps in examples whose names are ASCII:
    it is never called there. *)
Definition ascii_only (s : string) : string := s.

(** The catalog as triples of [Path], [Name] and [Func]. *)
Definition catalog_of (r : outcome (result (list Asset)))
  : outcome (result (list (string * string * string))) :=
  (fun res => match res with
              | OK l => OK (map (fun a => (Path a, Name a, Func a)) l)
              | Err e => Err e
              end) <$> r.

Definition names_of (r : outcome (result (list Asset)))
  : outcome (result (list string)) :=
  (fun res => match res with
              | OK l => OK (map Name l)
              | Err e => Err e
              end) <$> r.

(** [Translate] on a tree file system, for names that are ASCII. *)
Definition Translate_fs (f : TreeFS.fs) (prefix : string) (ignore : list Regexp)
    (inputs : list InputConfig) (fuel : nat)
  : outcome (result (list Asset)) :=
  Translate ascii_only ascii_only (TreeFS.to_OS f) fuel prefix ignore inputs.

(** An element that [Clean] leaves in place. *)
Definition plain (w : string) : Prop := w <> "" /\ w <> "." /\ w <> "..".

(** In [cycle]: the path of [r] after [k] turns through [a/loop], the
    elements of that path, the absolute form under which the link looks
    itself up there, and the name of [f.txt] there. *)
Fixpoint cycle_dir (k : nat) : string :=
  match k with
  | O => "r"
  | S k' => cycle_dir k' ++ "/a/loop"
  end.

Fixpoint cycle_elems (k : nat) : list string :=
  match k with
  | O => ["r"]
  | S k' => (cycle_elems k' ++ ["a"; "loop"])%list
  end.

Definition cycle_key (k : nat) : string := "/cwd/" ++ cycle_dir k.

Definition cycle_name (k : nat) : string := cycle_dir k ++ "/f.txt".

(** No path of the form [cycle_key j], [j >= k], is in [visitedPaths]. *)
Definition unseen (k : nat) (st : State) : Prop :=
  forall j, (k <= j)%nat -> visitedPaths st !! cycle_key j = None.

(** The state in which [loop] is followed at level [k]. *)
Definition cycle_marks (k : nat) (st : State) : State :=
  mark_visited (cycle_key k)
    (mark_visited (cycle_dir k ++ "/a")
       (mark_visited (cycle_dir k ++ "/a")
          (mark_visited (cycle_dir k) st))).

(** ** A name that is not ASCII

    The Kelvin sign U+212A, in UTF-8.  It is not in [a-zA-Z0-9_], and
    none of its three bytes is. *)
Definition kelvin_sign : string := String "226" (String "132" (String "170" "")).

(** [strings.ToLower] on the strings made of ASCII characters and
    Kelvin signs: [unicode.ToLower] maps U+212A to [k] (U+006B), and an
    ASCII byte to its lower case. *)
Fixpoint lower_kelvin (s : string) : string :=
  match s with
  | EmptyString => EmptyString
  | String a t =>
      match t with
      | String b (String c rest) =>
          if String.eqb (String a (String b (String c EmptyString))) kelvin_sign
          then String "k" (lower_kelvin rest)
          else String (lower_byte a) (lower_kelvin t)
      | _ => String (lower_byte a) (lower_kelvin t)
      end
  end.

(** ** Notions used in the further properties *)

(** A Go identifier made of ASCII letters, digits and [_]: not empty,
    every byte in [a-zA-Z0-9_], the first one not a digit. *)
Definition valid_ident (s : string) : Prop :=
  string_forallb ident_byte s = true /\
  match s with
  | String c _ => is_digit c = false
  | EmptyString => False
  end.

(** The counters of [knownFuncs] are not negative. *)
Definition counters_nonneg (known : gmap string Z) : Prop :=
  forall b n, known !! b = Some n -> 0 <= n.

(** The identifiers given out so far are valid and the counters count
    them, as long as the catalog is shorter than the range of [int]. *)
Definition funcs_ok (st : State) : Prop :=
  Z.of_nat (length (toc st)) < 2 ^ 63 - 2 ->
  (forall b n, knownFuncs st !! b = Some n ->
               2 <= n <= Z.of_nat (length (toc st)) + 1) /\
  Forall (fun a => valid_ident (Func a)) (toc st).

(** The last byte is a decimal digit. *)
Fixpoint ends_digit (s : string) : bool :=
  match s with
  | EmptyString => false
  | String c r =>
      match r with
      | EmptyString => is_digit c
      | _ => ends_digit r
      end
  end.

(** The flag [toUpper] after the loop of [safeFunctionName] has read
    [s]. *)
Fixpoint pending (toUpper : bool) (s : string) : bool :=
  match s with
  | EmptyString => toUpper
  | String b rest => pending (regFuncName_Match b) rest
  end.

(** [st'] is [st] with assets appended, paths marked and bases
    registered; nothing is taken away. *)
Definition grows (st st' : State) : Prop :=
  (exists added, toc st' = (toc st ++ added)%list) /\
  (forall p, is_visited p st = true -> is_visited p st' = true) /\
  (forall b, is_Some (knownFuncs st !! b) -> is_Some (knownFuncs st' !! b)).

(** The identifiers of the catalog are those that [safeFunctionName]
    gives for its names, called in the order of the catalog from the
    empty [knownFuncs], and [knownFuncs] is where these calls leave
    it. *)
Definition replays (toLowerU toUpperU : string -> string) (st : State) : Prop :=
  sanitize_all toLowerU toUpperU (map Name (toc st)) ∅
  = Ret (map Func (toc st), knownFuncs st).

(** Two results of [Readdir] that differ in the order of the entries
    only; no two entries of the directory have the same name. *)
Definition same_listing (r1 r2 : result (list FileInfo)) : Prop :=
  match r1, r2 with
  | OK l1, OK l2 => Permutation l1 l2 /\ List.NoDup (map fi_Name l1)
  | Err e1, Err e2 => e1 = e2
  | _, _ => False
  end.

(** Two systems that differ in the order of their listings only. *)
Definition relisted (os1 os2 : OS) : Prop :=
  Getwd os1 = Getwd os2 /\
  (forall p, Stat os1 p = Stat os2 p) /\
  (forall p, Readlink os1 p = Readlink os2 p) /\
  (forall p, same_listing (Readdir os1 p) (Readdir os2 p)).

(** An absolute path in its shortest form: [/] and then elements that
    are not empty, not [.] and not [..], with one [/] between them. *)
Definition canonical (p : string) : Prop :=
  exists elems, p = "/" ++ join_slash elems /\
                Forall plain elems /\ Forall is_elem elems.

(** Lines 119-123: [byName] as a [sort.Interface].  An index out of
    range panics. *)
Definition index (v : list FileInfo) (i : Z) : outcome FileInfo :=
  if 0 <=? i then
    match v !! Z.to_nat i with
    | Some x => Ret x
    | None => Panic
    end
  else Panic.

Definition byName_Len (v : list FileInfo) : Z := Z.of_nat (length v).

Definition byName_Swap (v : list FileInfo) (i j : Z) : outcome (list FileInfo) :=
  a ← index v i;
  b ← index v j;
  Ret (<[Z.to_nat j := a]> (<[Z.to_nat i := b]> v)).

Definition byName_Less_at (v : list FileInfo) (i j : Z) : outcome bool :=
  a ← index v i;
  b ← index v j;
  Ret (byName_Less a b).

(** A system that holds one directory, [path], with the entries
    [listing]; the working directory is [/]. *)
Definition one_dir (path : string) (listing : list FileInfo) : OS :=
  mkOS (OK "/")
       (fun p => if decide (p = path) then OK (mkFileInfo (TreeFS.basename p) true false)
                 else Err TreeFS.ENOENT)
       (fun p => if decide (p = path) then OK listing else Err TreeFS.ENOENT)
       (fun _ => Err TreeFS.EINVAL).

(* ================================================================= *)
(** * Properties *)

Section SanitizerProps.

Variables toLowerU toUpperU : string -> string.

Lemma ident_byte_ascii b : ident_byte b = true -> byte_is_ascii b = true.
Proof. destruct b as [[] [] [] [] [] [] [] []]; vm_compute; congruence. Qed.

Lemma ToUpper_ident_byte b :
  ident_byte b = true ->
  ToUpper toUpperU (string_of_byte b) = String (upper_byte b) EmptyString.
Proof.
  intros H. apply ident_byte_ascii in H.
  unfold string_of_byte, ToUpper, isASCII. unfold byte_is_ascii in H.
  rewrite H. simpl. unfold byte_is_ascii. rewrite H. reflexivity.
Qed.

Lemma scan_cons up b rest :
  scan toUpperU up (String b rest) =
  if ident_byte b
  then String (if up then upper_byte b else b) (scan toUpperU false rest)
  else scan toUpperU true rest.
Proof.
  simpl. unfold regFuncName_Match.
  destruct (ident_byte b) eqn:E; simpl; [|reflexivity].
  destruct up; [|reflexivity].
  rewrite ToUpper_ident_byte by assumption. reflexivity.
Qed.

Lemma spec_class_ident b :
  is_upper b = false -> spec_class b = ident_byte b.
Proof.
  intros H. unfold spec_class, ident_byte. rewrite H.
  rewrite orb_false_r. reflexivity.
Qed.

(** The loop against the runs of its input, for both values of the
    flag. *)
Lemma scan_runs s :
  string_forallb (fun c => negb (is_upper c)) s = true ->
  scan toUpperU false s = spec_copy s /\
  scan toUpperU true s = concat_strings (map emit_later (runs s)).
Proof.
  induction s as [|c s IH]; intros Hs; [split; reflexivity|].
  simpl in Hs. apply andb_true_iff in Hs as [Hc Hs].
  apply negb_true_iff in Hc. specialize (IH Hs) as [IHf IHt].
  rewrite !scan_cons, IHf, IHt. unfold spec_copy. simpl runs.
  rewrite <- (spec_class_ident c Hc).
  destruct (runs s) as [|[b r] rs]; destruct (spec_class c) eqn:Ec;
    try destruct b; simpl; auto.
Qed.

Lemma lower_byte_not_upper c : is_upper (lower_byte c) = false.
Proof. destruct c as [[] [] [] [] [] [] [] []]; vm_compute; congruence. Qed.

Lemma ToLower_ascii_no_upper s :
  isASCII s = true ->
  string_forallb (fun c => negb (is_upper c)) (ToLower toLowerU s) = true.
Proof.
  intros H. unfold ToLower. rewrite H. clear H.
  induction s as [|c s IH]; [reflexivity|].
  simpl. rewrite lower_byte_not_upper. exact IH.
Qed.

Lemma scan_all_outside up s :
  string_forallb regFuncName_Match s = true -> scan toUpperU up s = "".
Proof.
  revert up. induction s as [|c s IH]; intros up H; [reflexivity|].
  simpl in H. apply andb_true_iff in H as [Hc Hs].
  simpl. rewrite Hc. apply IH, Hs.
Qed.

Lemma lower_byte_outside c :
  regFuncName_Match c = true -> lower_byte c = c.
Proof. destruct c as [[] [] [] [] [] [] [] []]; vm_compute; congruence. Qed.

Lemma string_map_lower_outside s :
  string_forallb regFuncName_Match s = true -> string_map lower_byte s = s.
Proof.
  induction s as [|c s IH]; [reflexivity|]. simpl.
  intros H. apply andb_true_iff in H as [Hc Hs].
  rewrite lower_byte_outside, IH; auto.
Qed.

Lemma safeFunctionName_candidate name b known :
  candidate toLowerU toUpperU name = Ret b ->
  safeFunctionName toLowerU toUpperU name known = Ret (disambiguate b known).
Proof. unfold safeFunctionName. intros ->. reflexivity. Qed.

Lemma int_add_1 n : -2 ^ 63 <= n < 2 ^ 63 - 1 -> int_add n 1 = n + 1.
Proof.
  intros H. unfold int_add, int_wrap.
  rewrite Z.mod_small by lia. lia.
Qed.

Lemma expected_counter_cons_eq prev b :
  Z.of_nat (length prev) < 2 ^ 63 - 2 ->
  expected_counter (b :: prev) b =
  Some (match expected_counter prev b with
        | Some n => int_add n 1
        | None => 2
        end).
Proof.
  intros Hlen. unfold expected_counter.
  rewrite count_occ_cons_eq by reflexivity.
  pose proof (count_occ_bound string_dec b prev) as Hb.
  destruct (count_occ string_dec prev b) as [|k] eqn:E; [reflexivity|].
  rewrite int_add_1 by lia. f_equal. lia.
Qed.

Lemma expected_counter_cons_ne prev b b' :
  b <> b' -> expected_counter (b :: prev) b' = expected_counter prev b'.
Proof.
  intros Hne. unfold expected_counter.
  rewrite count_occ_cons_neq by assumption. reflexivity.
Qed.

(** The invariant of [knownFuncs]: a base met [k] times has counter
    [k + 1]. *)
Lemma sanitize_all_expected names : forall bases prev known,
  Forall2 (fun n b => candidate toLowerU toUpperU n = Ret b) names bases ->
  Z.of_nat (length prev + length names) < 2 ^ 63 - 1 ->
  (forall b, known !! b = expected_counter prev b) ->
  exists known',
    sanitize_all toLowerU toUpperU names known
      = Ret (expected_ids prev bases, known') /\
    forall b, known' !! b = expected_counter (rev bases ++ prev) b.
Proof.
  induction names as [|n names IH]; intros bases prev known HF Hlen Hinv.
  - inversion HF; subst. exists known. split; [reflexivity|]. exact Hinv.
  - inversion HF as [|? b ? bases' Hc HF']; subst. simpl in Hlen.
    simpl sanitize_all. rewrite (safeFunctionName_candidate _ _ _ Hc).
    destruct (IH bases' (b :: prev) (snd (disambiguate b known)) HF')
      as (known' & Hrun & Hinv').
    + simpl. lia.
    + intros b'. unfold disambiguate. rewrite (Hinv b).
      destruct (decide (b = b')) as [<-|Hne].
      * rewrite expected_counter_cons_eq by lia.
        destruct (expected_counter prev b); simpl; apply lookup_insert_eq.
      * rewrite expected_counter_cons_ne by assumption.
        destruct (expected_counter prev b); simpl;
          rewrite lookup_insert_ne by assumption; apply Hinv.
    + exists known'. split.
      * destruct (disambiguate b known) as [f known1] eqn:Ed. simpl in *.
        rewrite Hrun. simpl. do 3 f_equal.
        unfold disambiguate in Ed. rewrite (Hinv b) in Ed.
        unfold expected_id. unfold expected_counter in Ed.
        destruct (count_occ string_dec prev b); congruence.
      * intros b'. rewrite Hinv'. simpl. rewrite <- app_assoc. reflexivity.
Qed.

End SanitizerProps.

(** ** Shape of cleaned paths *)

Section PathProps.

Lemma split_slash_nonempty s : split_slash s <> [].
Proof.
  destruct s as [|c s]; simpl; [discriminate|].
  destruct (ascii_dec c "/"); [discriminate|].
  destruct (split_slash s); discriminate.
Qed.

Lemma split_slash_no_slash s : Forall (fun w => no_slash w = true) (split_slash s).
Proof.
  induction s as [|c s IH]; simpl.
  - repeat constructor.
  - destruct (ascii_dec c "/") as [->|Hc].
    + constructor; [reflexivity|exact IH].
    + destruct (split_slash s) as [|w ws]; inversion IH; subst;
        constructor; try assumption; unfold no_slash; simpl;
        destruct (ascii_dec c "/"); try contradiction; auto.
Qed.

Lemma clean_step_elems rooted kept c :
  no_slash c = true -> Forall is_elem kept ->
  Forall is_elem (clean_step rooted kept c).
Proof.
  intros Hc Hk. unfold clean_step.
  repeat case_decide; subst; auto.
  - destruct kept as [|top below].
    + destruct rooted; repeat constructor; auto; discriminate.
    + inversion Hk; subst. case_decide; auto.
      constructor; [split; [discriminate|reflexivity]|exact Hk].
  - constructor; [split; assumption|exact Hk].
Qed.

Lemma clean_elems_elems rooted l :
  Forall (fun w => no_slash w = true) l -> Forall is_elem (clean_elems rooted l).
Proof.
  intros Hl. unfold clean_elems. apply Forall_rev.
  assert (Hnil : Forall is_elem []) by constructor.
  revert Hnil. generalize (@nil string) as kept.
  induction Hl as [|c l Hc Hl IH]; intros kept Hk; simpl; [exact Hk|].
  apply IH, clean_step_elems; assumption.
Qed.

Lemma no_slash_leading w : no_slash w = true -> leading_slash w = false.
Proof.
  destruct w as [|c w]; [reflexivity|]. unfold no_slash. simpl.
  destruct (ascii_dec c "/"); [discriminate|reflexivity].
Qed.

Lemma no_double_slash_cons c r :
  no_double_slash (String c r) =
  negb (leading_slash (String c r) && leading_slash r) && no_double_slash r.
Proof. reflexivity. Qed.

Lemma no_double_slash_app_elem w r :
  no_slash w = true ->
  no_double_slash r = true -> leading_slash r = false ->
  no_double_slash (w ++ "/" ++ r) = true.
Proof.
  intros Hw Hr Hl. induction w as [|c w IH].
  - change ("" ++ "/" ++ r) with (String "/" r).
    rewrite no_double_slash_cons, Hl, Hr, andb_false_r. reflexivity.
  - unfold no_slash in Hw. simpl in Hw.
    destruct (ascii_dec c "/") as [|Hc]; [discriminate|].
    change ((String c w) ++ "/" ++ r) with (String c (w ++ "/" ++ r)).
    rewrite no_double_slash_cons, (IH Hw).
    unfold leading_slash at 1. destruct (ascii_dec c "/"); [contradiction|].
    reflexivity.
Qed.

Lemma no_slash_no_double w : no_slash w = true -> no_double_slash w = true.
Proof.
  induction w as [|c w IH]; [reflexivity|]. unfold no_slash. simpl.
  destruct (ascii_dec c "/"); [discriminate|]. intros H. simpl. apply IH, H.
Qed.

Lemma leading_slash_app w r :
  w <> "" -> leading_slash (w ++ r) = leading_slash w.
Proof. destruct w; [congruence|reflexivity]. Qed.

Lemma join_slash_shape l :
  Forall is_elem l ->
  no_double_slash (join_slash l) = true /\ leading_slash (join_slash l) = false.
Proof.
  induction 1 as [|w l [Hne Hw] Hl [IH1 IH2]]; [split; reflexivity|].
  destruct l as [|w' l'].
  - simpl. split; [apply no_slash_no_double, Hw|apply no_slash_leading, Hw].
  - change (join_slash (w :: w' :: l')) with (w ++ "/" ++ join_slash (w' :: l')).
    split.
    + apply no_double_slash_app_elem; assumption.
    + rewrite leading_slash_app by assumption. apply no_slash_leading, Hw.
Qed.

Lemma Clean_no_double_slash p : no_double_slash (Clean p) = true.
Proof.
  unfold Clean.
  pose proof (join_slash_shape _
    (clean_elems_elems (IsAbs p) _ (split_slash_no_slash p))) as [H1 H2].
  destruct (IsAbs p).
  - change ("/" ++ ?b) with (String "/" b).
    rewrite no_double_slash_cons, H2, H1, andb_false_r. reflexivity.
  - case_decide; [reflexivity|exact H1].
Qed.

Lemma Join_no_double_slash a b : no_double_slash (Join a b) = true.
Proof.
  unfold Join. repeat case_decide; auto using Clean_no_double_slash.
Qed.

Lemma no_double_slash_drop n s :
  no_double_slash s = true -> no_double_slash (string_drop n s) = true.
Proof.
  revert s. induction n as [|n IH]; intros s H; [exact H|].
  destruct s as [|c s]; [reflexivity|]. simpl.
  apply IH. simpl in H. apply andb_true_iff in H as [_ H]. exact H.
Qed.

(** After the removal of one leading separator, none is left. *)
Lemma strip_leading_slash s :
  no_double_slash s = true ->
  leading_slash (if leading_slash s then string_drop 1 s else s) = false.
Proof.
  intros H. destruct (leading_slash s) eqn:E; [|exact E].
  destruct s as [|c s]; [discriminate|].
  rewrite no_double_slash_cons, E in H. simpl.
  destruct (leading_slash s); [discriminate|reflexivity].
Qed.

Lemma string_app_assoc (a b c : string) : (a ++ b) ++ c = a ++ b ++ c.
Proof.
  induction a as [|x a IH]; [reflexivity|].
  change (String x ((a ++ b) ++ c) = String x (a ++ b ++ c)).
  f_equal. exact IH.
Qed.

Lemma split_slash_app a b :
  split_slash (a ++ "/" ++ b) = (split_slash a ++ split_slash b)%list.
Proof.
  induction a as [|c a IH]; [reflexivity|].
  change (String c a ++ "/" ++ b) with (String c (a ++ "/" ++ b)).
  simpl. rewrite IH.
  destruct (ascii_dec c "/"); [reflexivity|].
  pose proof (split_slash_nonempty a) as Hne.
  destruct (split_slash a) as [|w ws]; [contradiction|reflexivity].
Qed.

Lemma join_split_slash s : join_slash (split_slash s) = s.
Proof.
  induction s as [|c s IH]; [reflexivity|]. simpl.
  pose proof (split_slash_nonempty s) as Hne.
  destruct (split_slash s) as [|w ws]; [contradiction|].
  destruct (ascii_dec c "/") as [->|Hc].
  - change (join_slash ("" :: w :: ws)) with ("" ++ "/" ++ join_slash (w :: ws)).
    rewrite IH. reflexivity.
  - destruct ws as [|w' ws'].
    + simpl in *. rewrite IH. reflexivity.
    + change (join_slash (String c w :: w' :: ws'))
        with (String c (w ++ "/" ++ join_slash (w' :: ws'))).
      change (join_slash (w :: w' :: ws'))
        with (w ++ "/" ++ join_slash (w' :: ws')) in IH.
      rewrite IH. reflexivity.
Qed.

Lemma clean_step_plain rooted kept c :
  plain c -> clean_step rooted kept c = c :: kept.
Proof.
  intros (H1 & H2 & H3). unfold clean_step.
  repeat case_decide; congruence.
Qed.

Lemma fold_clean_plain rooted l : forall kept,
  Forall plain l ->
  fold_left (clean_step rooted) l kept = (rev l ++ kept)%list.
Proof.
  induction l as [|c l IH]; intros kept Hl; [reflexivity|].
  inversion Hl; subst. simpl.
  rewrite clean_step_plain by assumption. rewrite IH by assumption.
  rewrite <- app_assoc. reflexivity.
Qed.

(** A relative path made of plain elements is clean. *)
Lemma Clean_plain s :
  IsAbs s = false -> Forall plain (split_slash s) -> Clean s = s.
Proof.
  intros Ha Hp. unfold Clean, clean_elems. rewrite Ha.
  rewrite fold_clean_plain by exact Hp.
  rewrite app_nil_r, rev_involutive, join_split_slash.
  case_decide as Hs; [|reflexivity].
  subst s. inversion Hp as [|? ? (Hne & _) _]. congruence.
Qed.

End PathProps.

(** ** The walker, entry by entry *)

Section WalkerProps.

Variables toLowerU toUpperU : string -> string.
Variable os : OS.

(** An entry whose path matches an ignore pattern: nothing happens,
    whatever the recursive call would do. *)
Lemma visit_ignored (recur : walker) dir dirpath prefix recursive ignore file st :
  ignoring ignore (Join dirpath (fi_Name file)) = true ->
  visit toLowerU toUpperU os recur dir dirpath prefix recursive ignore file st
  = Ret (st, None).
Proof. intros H. unfold visit. rewrite H. reflexivity. Qed.

Lemma walk_skips_ignored (recur : walker) dir dirpath prefix recursive ignore list :
  forall st,
  walk toLowerU toUpperU os recur dir dirpath prefix recursive ignore list st
  = walk toLowerU toUpperU os recur dir dirpath prefix recursive ignore
      (List.filter (kept ignore dirpath) list) st.
Proof.
  induction list as [|file rest IH]; intros st; [reflexivity|].
  simpl List.filter. unfold kept at 1.
  destruct (ignoring ignore (Join dirpath (fi_Name file))) eqn:E; simpl.
  - rewrite visit_ignored by exact E. simpl. apply IH.
  - destruct (visit _ _ _ _ _ _ _ _ _ _ _) as [[st' [e|]]| |]; simpl; auto.
Qed.

(** A directory entry: the error of the recursive call is dropped
    (line 184). *)
Lemma visit_dir (recur : walker) dir dirpath prefix ignore file st :
  ignoring ignore (Join dirpath (fi_Name file)) = false ->
  fi_IsDir file = true ->
  visit toLowerU toUpperU os recur dir dirpath prefix true ignore file st
  = match recur (Join dir (fi_Name file))
            (mark_visited (Join dirpath (fi_Name file)) st) with
    | Ret (st', _) => Ret (st', None)
    | Panic => Panic
    | OutOfFuel => OutOfFuel
    end.
Proof.
  intros Hi Hd. unfold visit. rewrite Hi, Hd.
  destruct (recur _ _) as [[st' e]| |]; reflexivity.
Qed.

(** A symbolic link (lines 187-201). *)
Lemma visit_symlink (recur : walker) dir dirpath prefix recursive ignore file st :
  ignoring ignore (Join dirpath (fi_Name file)) = false ->
  fi_IsDir file = false -> fi_ModeSymlink file = true ->
  visit toLowerU toUpperU os recur dir dirpath prefix recursive ignore file st
  = match link_key os dirpath file with
    | Err e => Ret (st, Some e)
    | OK key =>
        if is_visited key st then Ret (st, None)
        else match recur (Join dirpath (fi_Name file)) (mark_visited key st) with
             | Ret (st', _) => Ret (st', None)
             | Panic => Panic
             | OutOfFuel => OutOfFuel
             end
    end.
Proof.
  intros Hi Hd Hl. unfold visit, link_key. rewrite Hi, Hd, Hl.
  destruct (Readlink os _) as [linkPath|e]; [|reflexivity].
  destruct (IsAbs linkPath).
  - destruct (is_visited linkPath st); [reflexivity|].
    destruct (recur _ _) as [[st' e]| |]; reflexivity.
  - destruct (Abs os _) as [q [e|]]; [reflexivity|].
    destruct (is_visited q st); [reflexivity|].
    destruct (recur _ _) as [[st' e]| |]; reflexivity.
Qed.

Lemma visit_file (recur : walker) dir dirpath prefix recursive ignore file st :
  ignoring ignore (Join dirpath (fi_Name file)) = false ->
  fi_IsDir file = false -> fi_ModeSymlink file = false ->
  visit toLowerU toUpperU os recur dir dirpath prefix recursive ignore file st
  = add_file toLowerU toUpperU os dir prefix file
      (Join dirpath (fi_Name file)) (ToSlash (Join dirpath (fi_Name file))) st.
Proof. intros Hi Hd Hl. unfold visit. rewrite Hi, Hd, Hl. reflexivity. Qed.

(** The body of [findFiles]. *)
Lemma findFiles_S fuel dir prefix recursive ignore st :
  findFiles toLowerU toUpperU os (S fuel) dir prefix recursive ignore st =
  let dirpath := fst (absolutize os dir prefix) in
  let prefix := snd (absolutize os dir prefix) in
  match Stat os dirpath with
  | Err e => Ret (st, Some e)
  | OK fi =>
      let recur := fun d s =>
        findFiles toLowerU toUpperU os fuel d prefix recursive ignore s in
      if negb (fi_IsDir fi) then
        walk toLowerU toUpperU os recur dir (Dir dirpath) prefix recursive
             ignore [fi] st
      else
        match Readdir os dirpath with
        | Err e => Ret (mark_visited dirpath st, Some e)
        | OK list =>
            walk toLowerU toUpperU os recur dir dirpath prefix recursive
                 ignore (sort_byName list) (mark_visited dirpath st)
        end
  end.
Proof.
  simpl findFiles. destruct (absolutize os dir prefix) as [dirpath prefix'].
  reflexivity.
Qed.

(** *** State invariants

    A property of the state that marking a path keeps and that adding a
    file which is not ignored keeps, is kept by a whole walk. *)

Section Preserve.

Variable ignore : list Regexp.
Variable P : State -> Prop.

Hypothesis P_mark : forall p st, P st -> P (mark_visited p st).
Hypothesis P_add : forall dir dirpath prefix file st st' e,
  ignoring ignore (Join dirpath (fi_Name file)) = false ->
  add_file toLowerU toUpperU os dir prefix file
    (Join dirpath (fi_Name file)) (ToSlash (Join dirpath (fi_Name file))) st
  = Ret (st', e) ->
  P st -> P st'.

Lemma visit_preserves (recur : walker) dir dirpath prefix recursive file :
  keeps P recur ->
  forall st st' e,
  visit toLowerU toUpperU os recur dir dirpath prefix recursive ignore file st
  = Ret (st', e) ->
  P st -> P st'.
Proof.
  intros Hrec st st' e H HP.
  destruct (ignoring ignore (Join dirpath (fi_Name file))) eqn:Hi.
  { rewrite visit_ignored in H by exact Hi. congruence. }
  destruct (fi_IsDir file) eqn:Hd.
  { destruct recursive.
    - rewrite visit_dir in H by assumption.
      destruct (recur _ _) as [[s1 e1]| |] eqn:Er; inversion H; subst.
      eapply Hrec; [exact Er|]. apply P_mark, HP.
    - unfold visit in H. rewrite Hi, Hd in H. congruence. }
  destruct (fi_ModeSymlink file) eqn:Hl.
  { rewrite visit_symlink in H by assumption.
    destruct (link_key os dirpath file) as [key|e1]; [|congruence].
    destruct (is_visited key st); [congruence|].
    destruct (recur _ _) as [[s1 e1]| |] eqn:Er; inversion H; subst.
    eapply Hrec; [exact Er|]. apply P_mark, HP. }
  rewrite visit_file in H by assumption.
  eapply P_add; eassumption.
Qed.

Lemma walk_preserves (recur : walker) dir dirpath prefix recursive list :
  keeps P recur ->
  forall st st' e,
  walk toLowerU toUpperU os recur dir dirpath prefix recursive ignore list st
  = Ret (st', e) ->
  P st -> P st'.
Proof.
  intros Hrec. induction list as [|file rest IH]; intros st st' e H HP.
  - simpl in H. congruence.
  - simpl in H.
    destruct (visit _ _ _ _ _ _ _ _ _ _ _) as [[s1 [e1|]]| |] eqn:Ev;
      simpl in H; try discriminate.
    + inversion H; subst. eapply visit_preserves; eassumption.
    + eapply IH; [exact H|]. eapply visit_preserves; eassumption.
Qed.

Lemma findFiles_preserves fuel : forall prefix recursive,
  keeps P (fun d s => findFiles toLowerU toUpperU os fuel d prefix recursive ignore s).
Proof.
  induction fuel as [|fuel IH]; intros prefix recursive d st st' e H HP.
  - discriminate.
  - rewrite findFiles_S in H. cbv zeta in H.
    destruct (Stat os _) as [fi|e1]; [|congruence].
    destruct (negb (fi_IsDir fi)).
    + eapply walk_preserves; [|exact H|exact HP]. apply IH.
    + destruct (Readdir os _) as [list|e1].
      * eapply walk_preserves; [|exact H|apply P_mark, HP]. apply IH.
      * inversion H; subst. apply P_mark, HP.
Qed.

Lemma Translate_loop_preserves fuel prefix inputs : forall st st' e,
  Translate_loop toLowerU toUpperU os fuel prefix ignore inputs st = Ret (st', e) ->
  P st -> P st'.
Proof.
  induction inputs as [|input rest IH]; intros st st' e H HP.
  - simpl in H. congruence.
  - simpl in H.
    destruct (findFiles _ _ _ _ _ _ _ _ _) as [[s1 [e1|]]| |] eqn:Ef;
      simpl in H; try discriminate.
    + inversion H; subst.
      eapply (findFiles_preserves fuel prefix); eassumption.
    + eapply IH; [exact H|].
      eapply (findFiles_preserves fuel prefix); eassumption.
Qed.

End Preserve.

End WalkerProps.

(** ** Sorting by name *)

Section SortProps.

Lemma name_le_leb a b : name_le a b <-> String.leb (fi_Name a) (fi_Name b) = true.
Proof.
  unfold name_le, byName_Less, string_lt, String.ltb, String.leb.
  rewrite (String.compare_antisym (fi_Name a) (fi_Name b)).
  destruct (String.compare (fi_Name b) (fi_Name a)); simpl; split; congruence.
Qed.

Lemma name_le_trans a b c : name_le a b -> name_le b c -> name_le a c.
Proof.
  rewrite !name_le_leb. intros H1 H2.
  apply Is_true_true. apply Is_true_true in H1, H2.
  exact (transitivity (R := String.le) H1 H2).
Qed.

Lemma name_le_total a b : byName_Less a b = true -> name_le a b.
Proof.
  unfold name_le, byName_Less, string_lt, String.ltb.
  rewrite (String.compare_antisym (fi_Name b) (fi_Name a)).
  destruct (String.compare (fi_Name a) (fi_Name b)); simpl; congruence.
Qed.

Lemma sort_insert_perm x l : Permutation (x :: l) (sort_insert x l).
Proof.
  induction l as [|y l IH]; simpl; [reflexivity|].
  destruct (byName_Less y x); [|reflexivity].
  rewrite perm_swap. constructor. exact IH.
Qed.

Lemma sort_byName_perm l : Permutation l (sort_byName l).
Proof.
  induction l as [|x l IH]; simpl; [reflexivity|].
  rewrite <- sort_insert_perm. constructor. exact IH.
Qed.

Lemma sort_insert_sorted x l :
  StronglySorted name_le l -> StronglySorted name_le (sort_insert x l).
Proof.
  induction 1 as [|y l Hl IH Hy]; simpl.
  - repeat constructor.
  - destruct (byName_Less y x) eqn:E.
    + constructor; [exact IH|].
      rewrite <- sort_insert_perm. constructor; [|exact Hy].
      apply name_le_total, E.
    + constructor; [constructor; assumption|].
      constructor; [exact E|].
      eapply Forall_impl; [exact Hy|]. intros z Hz.
      eapply name_le_trans; [exact E|exact Hz].
Qed.

Lemma sort_byName_sorted l : StronglySorted name_le (sort_byName l).
Proof.
  induction l as [|x l IH]; simpl; [constructor|].
  apply sort_insert_sorted, IH.
Qed.

Lemma sort_insert_first x l :
  Forall (name_le x) l -> sort_insert x l = x :: l.
Proof.
  destruct 1 as [|y l Hy _]; [reflexivity|]. simpl.
  unfold name_le in Hy. rewrite Hy. reflexivity.
Qed.

Lemma filter_sort_insert (f : FileInfo -> bool) x l :
  StronglySorted name_le l ->
  List.filter f (sort_insert x l) =
  if f x then sort_insert x (List.filter f l) else List.filter f l.
Proof.
  induction 1 as [|y l Hl IH Hy]; simpl.
  - destruct (f x); reflexivity.
  - destruct (byName_Less y x) eqn:E; simpl.
    + rewrite IH. destruct (f y), (f x); simpl; rewrite ?E; reflexivity.
    + destruct (f x) eqn:Ex; [|reflexivity].
      destruct (f y); simpl; [rewrite E; reflexivity|].
      symmetry. apply sort_insert_first.
      apply List.Forall_forall. intros z Hz. apply filter_In in Hz as [Hz _].
      eapply name_le_trans; [exact E|].
      rewrite List.Forall_forall in Hy. apply Hy, Hz.
Qed.

Lemma filter_sort_byName (f : FileInfo -> bool) l :
  List.filter f (sort_byName l) = sort_byName (List.filter f l).
Proof.
  induction l as [|x l IH]; [reflexivity|]. simpl.
  rewrite filter_sort_insert by apply sort_byName_sorted.
  rewrite IH. destruct (f x); reflexivity.
Qed.

End SortProps.

(** ** Discovery does not see what is ignored *)

Section HideProps.

Variables toLowerU toUpperU : string -> string.
Variable os : OS.

Lemma walk_ext (recur recur' : walker) dir dirpath prefix recursive ignore list :
  (forall d s, recur d s = recur' d s) ->
  forall st,
  walk toLowerU toUpperU os recur dir dirpath prefix recursive ignore list st
  = walk toLowerU toUpperU os recur' dir dirpath prefix recursive ignore list st.
Proof.
  intros Hr. induction list as [|file rest IH]; intros st; [reflexivity|].
  simpl. unfold visit. rewrite !Hr.
  destruct (ignoring _ _); simpl; [apply IH|].
  destruct (fi_IsDir file).
  { destruct recursive; simpl; [|apply IH].
    destruct (recur' _ _) as [[s1 e1]| |]; simpl; auto. }
  destruct (fi_ModeSymlink file).
  { destruct (Readlink os _) as [linkPath|e]; simpl; [|reflexivity].
    destruct (if IsAbs linkPath then _ else _) as [q [e|]]; simpl; [reflexivity|].
    destruct (is_visited q st); simpl; [apply IH|].
    rewrite Hr. destruct (recur' _ _) as [[s1 e1]| |]; simpl; auto. }
  destruct (add_file _ _ _ _ _ _ _ _ _) as [[s1 [e1|]]| |]; simpl; auto.
Qed.

Lemma walk_hide hidden (recur : walker) dir dirpath prefix recursive ignore list :
  forall st,
  walk toLowerU toUpperU (hide hidden os) recur dir dirpath prefix recursive
       ignore list st
  = walk toLowerU toUpperU os recur dir dirpath prefix recursive ignore list st.
Proof.
  induction list as [|file rest IH]; intros st; [reflexivity|].
  simpl.
  change (visit toLowerU toUpperU (hide hidden os)) with (visit toLowerU toUpperU os).
  destruct (visit _ _ _ _ _ _ _ _ _ _ _) as [[s1 [e1|]]| |]; simpl; auto.
Qed.

Lemma findFiles_hide ignore fuel : forall dir prefix recursive st,
  findFiles toLowerU toUpperU os fuel dir prefix recursive ignore st
  = findFiles toLowerU toUpperU (hide ignore os) fuel dir prefix recursive ignore st.
Proof.
  induction fuel as [|fuel IH]; intros dir prefix recursive st; [reflexivity|].
  rewrite !findFiles_S. cbv zeta.
  change (absolutize (hide ignore os) dir prefix) with (absolutize os dir prefix).
  change (Stat (hide ignore os)) with (Stat os).
  destruct (Stat os _) as [fi|e]; [|reflexivity].
  destruct (negb (fi_IsDir fi)).
  - rewrite walk_hide.
    apply (walk_ext _ _ _ _ _ _ _ _ (fun d s => IH d _ _ s)).
  - simpl Readdir. destruct (Readdir os _) as [list|e]; [|reflexivity].
    rewrite walk_hide, walk_skips_ignored, filter_sort_byName.
    apply (walk_ext _ _ _ _ _ _ _ _ (fun d s => IH d _ _ s)).
Qed.

End HideProps.

(** ** The cycle, for every limit on the number of links *)

Section CycleProps.

Import TreeFS Examples.

Lemma resolve_eq root links fl cur rest :
  resolve root links fl cur rest =
  match rest with
  | [] => OK cur
  | c :: rest' =>
      match node_at root cur with
      | Some (Directory entries) =>
          if decide (c = "") then resolve root links fl cur rest'
          else if decide (c = ".") then resolve root links fl cur rest'
          else if decide (c = "..") then resolve root links fl (removelast cur) rest'
          else
            match lookup_entry c entries with
            | None => Err ENOENT
            | Some (Symlink target) =>
                if negb fl && (if rest' is [] then true else false)
                then OK (cur ++ [c])%list
                else
                  match links with
                  | O => Err ELOOP
                  | S links' =>
                      resolve root links' fl
                        (if IsAbs target then [] else cur)
                        (split_slash target ++ rest')%list
                  end
            | Some _ => resolve root links fl (cur ++ [c])%list rest'
            end
      | Some _ => Err ENOTDIR
      | None => Err ENOENT
      end
  end.
Proof. destruct links, rest; reflexivity. Qed.
Lemma resolve_turn m fl tail :
  fl = true \/ tail <> [] ->
  resolve cycle_tree (S m) fl ["cwd"; "r"] ("a" :: "loop" :: tail)
  = resolve cycle_tree m fl ["cwd"; "r"] tail.
Proof.
  intros H. rewrite resolve_eq. simpl node_at. cbn iota beta.
  repeat (case_decide; [discriminate|]). simpl lookup_entry. cbn iota beta.
  rewrite resolve_eq. simpl node_at. cbn iota beta.
  repeat (case_decide; [discriminate|]). simpl lookup_entry. cbn iota beta.
  assert (Hc : negb fl && (if tail is [] then true else false) = false).
  { destruct H as [->|H]; [reflexivity|]. destruct tail; [congruence|].
    apply andb_false_r. }
  rewrite Hc. simpl IsAbs. cbn iota. simpl split_slash. simpl app.
  rewrite resolve_eq. simpl node_at. cbn iota beta.
  repeat (case_decide; try discriminate; try congruence).
  reflexivity.
Qed.

Lemma resolve_turns k : forall m fl tail,
  fl = true \/ tail <> [] ->
  resolve cycle_tree (k + m) fl ["cwd"] (cycle_elems k ++ tail)%list
  = resolve cycle_tree m fl ["cwd"; "r"] tail.
Proof.
  induction k as [|k IH]; intros m fl tail H.
  - simpl cycle_elems. simpl app. simpl Nat.add.
    rewrite resolve_eq. simpl node_at. cbn iota beta.
    repeat (case_decide; [discriminate|]). reflexivity.
  - simpl cycle_elems. rewrite <- app_assoc. simpl app.
    replace (S k + m)%nat with (k + S m)%nat by lia.
    rewrite IH by (right; discriminate).
    apply resolve_turn, H.
Qed.

Lemma cycle_dir_head k : exists t, cycle_dir k = String "r" t.
Proof.
  induction k as [|k [t IH]]; [exists ""; reflexivity|].
  exists (t ++ "/a/loop"). simpl. rewrite IH. reflexivity.
Qed.

Lemma cycle_dir_rel k t : IsAbs (cycle_dir k ++ t) = false.
Proof. destruct (cycle_dir_head k) as [u ->]. reflexivity. Qed.

Lemma cycle_dir_nonempty k t : cycle_dir k ++ t <> "".
Proof. destruct (cycle_dir_head k) as [u ->]. discriminate. Qed.

Lemma split_cycle_dir k : split_slash (cycle_dir k) = cycle_elems k.
Proof.
  induction k as [|k IH]; [reflexivity|]. simpl.
  change "/a/loop" with ("/" ++ "a/loop").
  rewrite split_slash_app, IH. reflexivity.
Qed.

Lemma plain_cycle_elems k : Forall plain (cycle_elems k).
Proof.
  induction k as [|k IH]; simpl.
  - repeat constructor; discriminate.
  - apply Forall_app. split; [exact IH|].
    repeat constructor; discriminate.
Qed.

Section Limit.

Variable n : nat.

Lemma locate_cycle_dir k fl t :
  (k <= n)%nat -> fl = true \/ split_slash t <> [] ->
  locate (cycle n) fl (cycle_dir k ++ "/" ++ t)
  = resolve cycle_tree (n - k) fl ["cwd"; "r"] (split_slash t).
Proof.
  intros Hk H. unfold locate.
  case_decide as He; [exfalso; exact (cycle_dir_nonempty _ _ He)|].
  rewrite cycle_dir_rel, split_slash_app, split_cycle_dir. simpl.
  replace n with (k + (n - k))%nat at 1 by lia.
  apply resolve_turns, H.
Qed.

Lemma locate_cycle_dir0 k :
  (k <= n)%nat -> locate (cycle n) true (cycle_dir k) = OK ["cwd"; "r"].
Proof.
  intros Hk. unfold locate.
  destruct (cycle_dir_head k) as [u Hu].
  case_decide as He; [congruence|].
  replace (IsAbs (cycle_dir k)) with false by (rewrite Hu; reflexivity).
  rewrite split_cycle_dir. simpl.
  replace n with (k + (n - k))%nat at 1 by lia.
  rewrite <- (app_nil_r (cycle_elems k)).
  rewrite resolve_turns by (left; reflexivity).
  rewrite resolve_eq. reflexivity.
Qed.

Local Abbreviation os := (to_OS (cycle n)).

Lemma Stat_cycle_dir k :
  (k <= n)%nat ->
  Stat os (cycle_dir k) = OK (mkFileInfo (basename (cycle_dir k)) true false).
Proof.
  intros Hk. simpl Stat. unfold fs_Stat. rewrite locate_cycle_dir0 by exact Hk.
  reflexivity.
Qed.

Lemma Readdir_cycle_dir k :
  (k <= n)%nat ->
  Readdir os (cycle_dir k)
  = OK [mkFileInfo "f.txt" false false; mkFileInfo "a" true false].
Proof.
  intros Hk. simpl Readdir. unfold fs_Readdir. rewrite locate_cycle_dir0 by exact Hk.
  reflexivity.
Qed.

Lemma locate_cycle_a k :
  (k <= n)%nat ->
  locate (cycle n) true (cycle_dir k ++ "/a") = OK ["cwd"; "r"; "a"].
Proof.
  intros Hk. change "/a" with ("/" ++ "a").
  rewrite locate_cycle_dir by (auto). simpl split_slash.
  rewrite resolve_eq. simpl node_at. cbn iota beta.
  repeat (case_decide; [discriminate|]). simpl lookup_entry. cbn iota beta.
  rewrite resolve_eq. reflexivity.
Qed.

Lemma Stat_cycle_a k :
  (k <= n)%nat ->
  Stat os (cycle_dir k ++ "/a")
  = OK (mkFileInfo (basename (cycle_dir k ++ "/a")) true false).
Proof.
  intros Hk. simpl Stat. unfold fs_Stat. rewrite locate_cycle_a by exact Hk.
  reflexivity.
Qed.

Lemma Readdir_cycle_a k :
  (k <= n)%nat ->
  Readdir os (cycle_dir k ++ "/a") = OK [mkFileInfo "loop" false true].
Proof.
  intros Hk. simpl Readdir. unfold fs_Readdir. rewrite locate_cycle_a by exact Hk.
  reflexivity.
Qed.

Lemma Readlink_cycle_loop k :
  (k <= n)%nat -> Readlink os (cycle_dir (S k)) = OK "..".
Proof.
  intros Hk. simpl Readlink. unfold fs_Readlink.
  simpl cycle_dir. change "/a/loop" with ("/" ++ "a/loop").
  rewrite locate_cycle_dir by (auto; right; discriminate). simpl split_slash.
  rewrite resolve_eq. simpl node_at. cbn iota beta.
  repeat (case_decide; [discriminate|]). simpl lookup_entry. cbn iota beta.
  rewrite resolve_eq. reflexivity.
Qed.

(** One turn more than the limit allows. *)
Lemma Stat_cycle_beyond :
  Stat os (cycle_dir (S n))
  = Err ("stat " ++ cycle_dir (S n) ++ ": " ++ ELOOP).
Proof.
  assert (H : locate (cycle n) true (cycle_dir (S n)) = Err ELOOP).
  { simpl cycle_dir. change "/a/loop" with ("/" ++ "a/loop").
    rewrite locate_cycle_dir by auto. simpl split_slash.
    rewrite Nat.sub_diag. reflexivity. }
  change (fs_Stat (cycle n) (cycle_dir (S n))
          = Err ("stat " ++ cycle_dir (S n) ++ ": " ++ ELOOP)).
  unfold fs_Stat. rewrite H. reflexivity.
Qed.

Lemma Join_cycle_dir k t :
  Forall plain (split_slash t) ->
  Join (cycle_dir k) t = cycle_dir k ++ "/" ++ t.
Proof.
  intros Ht. unfold Join.
  destruct (cycle_dir_head k) as [u Hu].
  case_decide as He; [congruence|].
  apply Clean_plain; [apply cycle_dir_rel|].
  rewrite split_slash_app, split_cycle_dir.
  apply Forall_app. split; [apply plain_cycle_elems|exact Ht].
Qed.

Lemma Join_cycle_a k : Join (cycle_dir k) "a" = cycle_dir k ++ "/a".
Proof. apply Join_cycle_dir. repeat constructor; discriminate. Qed.

Lemma Join_cycle_f k : Join (cycle_dir k) "f.txt" = cycle_name k.
Proof. apply Join_cycle_dir. repeat constructor; discriminate. Qed.

Lemma Join_cycle_loop k : Join (cycle_dir k ++ "/a") "loop" = cycle_dir (S k).
Proof.
  unfold Join. case_decide as He; [exfalso; exact (cycle_dir_nonempty _ _ He)|].
  replace ((cycle_dir k ++ "/a") ++ "/" ++ "loop")
    with (cycle_dir k ++ "/" ++ "a/loop")
    by (rewrite string_app_assoc; reflexivity).
  change (cycle_dir (S k)) with (cycle_dir k ++ "/" ++ "a/loop").
  apply Clean_plain; [apply cycle_dir_rel|].
  rewrite split_slash_app, split_cycle_dir.
  apply Forall_app. split; [apply plain_cycle_elems|].
  repeat constructor; discriminate.
Qed.

Lemma Clean_abs t :
  Clean (String "/" t) = "/" ++ join_slash (clean_elems true (split_slash t)).
Proof. reflexivity. Qed.

Lemma clean_step_up rooted kept c :
  plain c -> clean_step rooted (c :: kept) ".." = kept.
Proof.
  intros (H1 & H2 & H3). unfold clean_step.
  repeat (case_decide; try discriminate; try congruence).
Qed.

Lemma join_slash_cons w l :
  l <> [] -> join_slash (w :: l) = w ++ "/" ++ join_slash l.
Proof. destruct l; [congruence|reflexivity]. Qed.

(** The link [loop], met in [cycle_dir k ++ "/a"], is looked up under
    the absolute path of [cycle_dir k]. *)
Lemma Abs_cycle_up k :
  Abs os ((cycle_dir k ++ "/a") ++ "/" ++ "..") = (cycle_key k, None).
Proof.
  replace ((cycle_dir k ++ "/a") ++ "/" ++ "..")
    with (cycle_dir k ++ "/" ++ "a/..")
    by (rewrite string_app_assoc; reflexivity).
  unfold Abs. rewrite cycle_dir_rel. simpl Getwd.
  unfold Join. case_decide; [discriminate|]. f_equal.
  match goal with
  | |- Clean ?x = _ =>
      change x with (String "/" ("cwd" ++ "/" ++ cycle_dir k ++ "/" ++ "a/.."))
  end.
  rewrite Clean_abs, !split_slash_app, split_cycle_dir.
  unfold clean_elems. rewrite !fold_left_app.
  rewrite (fold_clean_plain true (cycle_elems k)) by apply plain_cycle_elems.
  simpl split_slash. simpl fold_left.
  rewrite (clean_step_plain true _ "a") by (repeat split; discriminate).
  rewrite clean_step_up by (repeat split; discriminate).
  rewrite (clean_step_plain true [] "cwd") by (repeat split; discriminate).
  rewrite rev_app_distr, rev_involutive. simpl rev. simpl app.
  assert (Hne : cycle_elems k <> []).
  { rewrite <- split_cycle_dir. apply split_slash_nonempty. }
  rewrite join_slash_cons by exact Hne.
  rewrite <- split_cycle_dir, join_split_slash. reflexivity.
Qed.
Lemma link_key_cycle k :
  (k <= n)%nat ->
  link_key os (cycle_dir k ++ "/a") (mkFileInfo "loop" false true) = OK (cycle_key k).
Proof.
  intros Hk. unfold link_key. simpl fi_Name.
  rewrite Join_cycle_loop, Readlink_cycle_loop by exact Hk.
  change (IsAbs "..") with false. cbv iota.
  rewrite Abs_cycle_up. reflexivity.
Qed.

Lemma candidate_cycle_name k :
  exists b, candidate ascii_only ascii_only (cycle_name k) = Ret b.
Proof.
  unfold candidate, cycle_name.
  destruct (cycle_dir_head k) as [u ->].
  assert (H : exists v, ToLower ascii_only (String "r" u ++ "/f.txt") = String "r" v).
  { unfold ToLower. destruct (isASCII _); eexists; reflexivity. }
  destruct H as [v ->]. rewrite scan_cons.
  change (ident_byte "r") with true. cbv iota.
  eexists. reflexivity.
Qed.

Lemma Abs_tree (f : fs) p : snd (Abs (to_OS f) p) = None.
Proof. unfold Abs. destruct (IsAbs p); reflexivity. Qed.

Lemma cycle_name_rel k : leading_slash (cycle_name k) = false.
Proof.
  unfold cycle_name. destruct (cycle_dir_head k) as [u ->]. reflexivity.
Qed.

Lemma add_file_cycle k st :
  exists st',
    add_file ascii_only ascii_only os (cycle_dir k) ""
      (mkFileInfo "f.txt" false false) (cycle_name k) (ToSlash (cycle_name k)) st
    = Ret (st', None) /\
    map Name (toc st') = (map Name (toc st) ++ [cycle_name k])%list.
Proof.
  unfold add_file.
  assert (Hn : logical_name (cycle_dir k) "" (mkFileInfo "f.txt" false false)
                 (ToSlash (cycle_name k)) = cycle_name k).
  { unfold logical_name, ToSlash. simpl HasPrefix. cbv iota. simpl len.
    change (string_drop 0 (cycle_name k)) with (cycle_name k).
    rewrite cycle_name_rel. reflexivity. }
  rewrite Hn. case_decide as He.
  { pose proof (cycle_name_rel k) as Hr. unfold cycle_name in He.
    exfalso. exact (cycle_dir_nonempty _ _ He). }
  unfold safeFunctionName. destruct (candidate_cycle_name k) as [b ->].
  simpl. pose proof (Abs_tree (cycle n) (cycle_name k)) as Ha.
  destruct (Abs os (cycle_name k)) as [path e]. simpl in Ha. subst e.
  destruct (disambiguate b (knownFuncs st)) as [func known].
  eexists. split; [reflexivity|].
  simpl. rewrite map_app. reflexivity.
Qed.

Lemma string_length_app a b :
  String.length (a ++ b) = (String.length a + String.length b)%nat.
Proof.
  induction a as [|c a IH]; [reflexivity|].
  change (S (String.length (a ++ b)) = S (String.length a + String.length b)).
  f_equal. exact IH.
Qed.

Lemma cycle_dir_length k : String.length (cycle_dir k) = (1 + 7 * k)%nat.
Proof.
  induction k as [|k IH]; [reflexivity|].
  simpl cycle_dir. rewrite string_length_app, IH. simpl. lia.
Qed.

Lemma cycle_key_inj j k : cycle_key j = cycle_key k -> j = k.
Proof.
  intros H. apply (f_equal String.length) in H. unfold cycle_key in H.
  rewrite !string_length_app, !cycle_dir_length in H. lia.
Qed.

Lemma unseen_mark_rel k p st :
  leading_slash p = false -> unseen k st -> unseen k (mark_visited p st).
Proof.
  intros Hp H j Hj. simpl. rewrite lookup_insert_ne; [apply H, Hj|].
  intros ->. discriminate.
Qed.

Lemma unseen_mark_key k st :
  unseen k st -> unseen (S k) (mark_visited (cycle_key k) st).
Proof.
  intros H j Hj. simpl. rewrite lookup_insert_ne; [apply H; lia|].
  intros He. apply cycle_key_inj in He. lia.
Qed.

Lemma unseen_not_visited k st : unseen k st -> is_visited (cycle_key k) st = false.
Proof. intros H. unfold is_visited. rewrite (H k) by lia. reflexivity. Qed.

Lemma cycle_dir_leading k t : leading_slash (cycle_dir k ++ t) = false.
Proof. destruct (cycle_dir_head k) as [u ->]. reflexivity. Qed.

Lemma absolutize_nil (o : OS) d : absolutize o d "" = (d, "").
Proof. reflexivity. Qed.

Lemma walk_cons toL toU (o : OS) (recur : walker) dir dirpath prefix recursive
    ignore file rest st :
  walk toL toU o recur dir dirpath prefix recursive ignore (file :: rest) st =
  match visit toL toU o recur dir dirpath prefix recursive ignore file st with
  | Ret (st', Some e) => Ret (st', Some e)
  | Ret (st', None) => walk toL toU o recur dir dirpath prefix recursive ignore rest st'
  | Panic => Panic
  | OutOfFuel => OutOfFuel
  end.
Proof.
  simpl. destruct (visit _ _ _ _ _ _ _ _ _ _ _) as [[st' [e|]]| |]; reflexivity.
Qed.

(** The invocation on [cycle_dir k ++ "/a"] follows [loop]. *)
Lemma cycle_level_a k fuel st :
  (k <= n)%nat -> unseen k st ->
  findFiles ascii_only ascii_only os (S fuel) (cycle_dir k ++ "/a") "" true [] st
  = match findFiles ascii_only ascii_only os fuel (cycle_dir (S k)) "" true []
            (mark_visited (cycle_key k) (mark_visited (cycle_dir k ++ "/a") st)) with
    | Ret (st1, _) => Ret (st1, None)
    | Panic => Panic
    | OutOfFuel => OutOfFuel
    end.
Proof.
  intros Hk Hu.
  rewrite findFiles_S. cbv zeta. rewrite absolutize_nil.
  cbn [fst snd]. rewrite Stat_cycle_a by exact Hk. cbn [fi_IsDir negb].
  rewrite Readdir_cycle_a by exact Hk.
  change (sort_byName [mkFileInfo "loop" false true])
    with [mkFileInfo "loop" false true].
  rewrite walk_cons, visit_symlink by reflexivity.
  rewrite link_key_cycle by exact Hk.
  rewrite unseen_not_visited
    by (apply unseen_mark_rel; [apply cycle_dir_leading|exact Hu]).
  cbn [fi_Name]. rewrite Join_cycle_loop.
  destruct (findFiles _ _ _ _ _ _ _ _ _) as [[st1 e1]| |]; reflexivity.
Qed.

(** The invocation on [cycle_dir k] enters [a], then adds [f.txt]. *)
Lemma cycle_level_r k fuel st :
  (k <= n)%nat ->
  findFiles ascii_only ascii_only os (S fuel) (cycle_dir k) "" true [] st
  = match findFiles ascii_only ascii_only os fuel (cycle_dir k ++ "/a") "" true []
            (mark_visited (cycle_dir k ++ "/a") (mark_visited (cycle_dir k) st)) with
    | Ret (st1, _) =>
        match add_file ascii_only ascii_only os (cycle_dir k) ""
                (mkFileInfo "f.txt" false false) (cycle_name k)
                (ToSlash (cycle_name k)) st1 with
        | Ret (st2, e) => Ret (st2, e)
        | Panic => Panic
        | OutOfFuel => OutOfFuel
        end
    | Panic => Panic
    | OutOfFuel => OutOfFuel
    end.
Proof.
  intros Hk.
  rewrite findFiles_S. cbv zeta. rewrite absolutize_nil.
  cbn [fst snd]. rewrite Stat_cycle_dir by exact Hk. cbn [fi_IsDir negb].
  rewrite Readdir_cycle_dir by exact Hk.
  change (sort_byName [mkFileInfo "f.txt" false false; mkFileInfo "a" true false])
    with [mkFileInfo "a" true false; mkFileInfo "f.txt" false false].
  rewrite walk_cons, visit_dir by reflexivity.
  cbn [fi_Name]. rewrite Join_cycle_a.
  destruct (findFiles _ _ _ _ _ _ _ _ _) as [[st1 e1]| |]; try reflexivity.
  rewrite walk_cons, visit_file by reflexivity.
  cbn [fi_Name]. rewrite Join_cycle_f.
  destruct (add_file _ _ _ _ _ _ _ _ _) as [[st2 [e|]]| |]; reflexivity.
Qed.

Lemma unseen_cycle_marks k st : unseen k st -> unseen (S k) (cycle_marks k st).
Proof.
  intros Hu. apply unseen_mark_key.
  repeat apply unseen_mark_rel; try apply cycle_dir_leading; try exact Hu.
  destruct (cycle_dir_head k) as [u ->]. reflexivity.
Qed.

Lemma unseen_marks_rel k st :
  unseen k st ->
  unseen k (mark_visited (cycle_dir k ++ "/a") (mark_visited (cycle_dir k) st)).
Proof.
  intros Hu.
  repeat apply unseen_mark_rel; try apply cycle_dir_leading; try exact Hu.
  destruct (cycle_dir_head k) as [u ->]. reflexivity.
Qed.

(** Two levels of recursion for one turn of the cycle. *)
Lemma cycle_level k fuel st :
  (k <= n)%nat -> unseen k st ->
  findFiles ascii_only ascii_only os (S (S fuel)) (cycle_dir k) "" true [] st
  = match findFiles ascii_only ascii_only os fuel (cycle_dir (S k)) "" true []
            (cycle_marks k st) with
    | Ret (st1, _) =>
        match add_file ascii_only ascii_only os (cycle_dir k) ""
                (mkFileInfo "f.txt" false false) (cycle_name k)
                (ToSlash (cycle_name k)) st1 with
        | Ret (st2, e) => Ret (st2, e)
        | Panic => Panic
        | OutOfFuel => OutOfFuel
        end
    | Panic => Panic
    | OutOfFuel => OutOfFuel
    end.
Proof.
  intros Hk Hu. rewrite cycle_level_r by exact Hk.
  rewrite cycle_level_a by (try exact Hk; apply unseen_marks_rel, Hu).
  unfold cycle_marks.
  destruct (findFiles _ _ _ _ _ _ _ _ _) as [[st1 e1]| |]; reflexivity.
Qed.

(** The walk from level [k]: [f.txt] of the levels [n], ..., [k]. *)
Lemma cycle_walk m : forall k fuel st,
  (k + m = n)%nat -> (2 * m + 3 <= fuel)%nat -> unseen k st ->
  exists st',
    findFiles ascii_only ascii_only os fuel (cycle_dir k) "" true [] st
      = Ret (st', None) /\
    map Name (toc st')
      = (map Name (toc st) ++ map cycle_name (rev (seq k (S m))))%list.
Proof.
  induction m as [|m IH]; intros k fuel st Hk Hf Hu.
  - destruct fuel as [|[|[|fuel]]]; try lia.
    assert (k = n) by lia. subst k.
    rewrite cycle_level by (try lia; exact Hu).
    rewrite (findFiles_S _ _ _ fuel). cbv zeta. rewrite absolutize_nil. cbn [fst snd].
    rewrite Stat_cycle_beyond.
    destruct (add_file_cycle n (cycle_marks n st)) as (st2 & -> & Hnames).
    exists st2. split; [reflexivity|]. rewrite Hnames. reflexivity.
  - destruct fuel as [|[|fuel]]; try lia.
    rewrite cycle_level by (try lia; exact Hu).
    destruct (IH (S k) fuel (cycle_marks k st)) as (st1 & -> & Hnames1);
      [lia|lia|apply unseen_cycle_marks, Hu|].
    destruct (add_file_cycle k st1) as (st2 & -> & Hnames).
    exists st2. split; [reflexivity|].
    rewrite Hnames, Hnames1.
    change (seq k (S (S m))) with (k :: seq (S k) (S m)).
    change (rev (k :: seq (S k) (S m))) with (rev (seq (S k) (S m)) ++ [k])%list.
    rewrite map_app, <- app_assoc. reflexivity.
Qed.

(** With less fuel the walk is cut off: its depth is [2 * (n - k) + 3]. *)
Lemma cycle_walk_short fuel : forall k st,
  (k <= n)%nat -> unseen k st ->
  ((fuel <= 2 * (n - k) + 2)%nat ->
   findFiles ascii_only ascii_only os fuel (cycle_dir k) "" true [] st = OutOfFuel) /\
  ((fuel <= 2 * (n - k) + 1)%nat ->
   findFiles ascii_only ascii_only os fuel (cycle_dir k ++ "/a") "" true [] st
   = OutOfFuel).
Proof.
  induction fuel as [|fuel IH]; intros k st Hk Hu; [split; reflexivity|].
  split; intros Hf.
  - rewrite cycle_level_r by exact Hk.
    rewrite (proj2 (IH k _ Hk (unseen_marks_rel k st Hu))) by lia. reflexivity.
  - rewrite cycle_level_a by assumption.
    destruct (decide (k = n)) as [->|Hne].
    + assert (fuel = 0)%nat as -> by lia. reflexivity.
    + rewrite (proj1 (IH (S k) _ ltac:(lia)
                 (unseen_mark_key k _ (unseen_mark_rel k _ _
                    (cycle_dir_leading k "/a") Hu)))) by lia.
      reflexivity.
Qed.

End Limit.

(** The catalog of the cycle under a limit of [n] links. *)
Lemma cycle_catalog n fuel :
  (2 * n + 3 <= fuel)%nat ->
  names_of (Translate_fs (cycle n) "" [] [mkInput "r" true] fuel)
  = Ret (OK (map cycle_name (rev (seq 0 (S n))))).
Proof.
  intros Hf.
  destruct (cycle_walk n n 0 fuel empty_state) as (st' & Hrun & Hnames);
    [lia|exact Hf|intros j _; apply lookup_empty|].
  unfold Translate_fs, Translate. simpl Translate_loop.
  change (cycle_dir 0) with "r" in Hrun. rewrite Hrun.
  simpl. rewrite Hnames. reflexivity.
Qed.

Lemma cycle_out_of_fuel n fuel :
  (fuel <= 2 * n + 2)%nat ->
  Translate_fs (cycle n) "" [] [mkInput "r" true] fuel = OutOfFuel.
Proof.
  intros Hf. unfold Translate_fs, Translate. simpl Translate_loop.
  change "r" with (cycle_dir 0).
  rewrite (proj1 (cycle_walk_short n fuel 0 empty_state ltac:(lia)
                    ltac:(intros j _; apply lookup_empty))) by lia.
  reflexivity.
Qed.

End CycleProps.

(* ================================================================= *)
(** * The documented properties *)

Import Examples.

(** ** Identifier Sanitizer *)

(** C8. The sanitizer lower-cases the name, then copies only the
    characters of [a-z0-9_]; a maximal run of other characters is not
    copied and makes the next copied character upper case, so that
    [a/b-c] becomes [aBC]; a result that starts with a decimal digit
    gets the prefix [_].  The hypothesis says that lower-casing leaves no
    byte of [A-Z]: it holds for every ASCII name
    ([ToLower_ascii_no_upper]) and is what Go's Unicode tables give for
    the others. *)
Theorem C8_sanitizer_camel_case (toLowerU toUpperU : string -> string) (name : string) :
  string_forallb (fun c => negb (is_upper c)) (ToLower toLowerU name) = true ->
  (isASCII name = true -> ToLower toLowerU name = string_map lower_byte name) /\
  scan toUpperU false (ToLower toLowerU name)
    = spec_copy (ToLower toLowerU name) /\
  candidate toLowerU toUpperU name
    = (if decide (spec_copy (ToLower toLowerU name) = "") then Panic
       else Ret (spec_underscore (spec_copy (ToLower toLowerU name)))) /\
  candidate toLowerU toUpperU "a/b-c" = Ret "aBC".
Proof.
  intros H. destruct (scan_runs toUpperU _ H) as [Hs _].
  split; [|split; [exact Hs|split; [|reflexivity]]].
  - intros Ha. unfold ToLower. rewrite Ha. reflexivity.
  - unfold candidate. rewrite Hs.
    destruct (spec_copy (ToLower toLowerU name)) as [|c r]; reflexivity.
Qed.

Lemma C8_sanitizer_camel_case_witness :
  string_forallb (fun c => negb (is_upper c)) (ToLower ascii_only "9-Lives/X.TXT") = true /\
  candidate ascii_only ascii_only "9-Lives/X.TXT" = Ret "_9LivesXTxt".
Proof.
  split; [reflexivity|].
  exact (proj1 (proj2 (proj2
    (C8_sanitizer_camel_case ascii_only ascii_only "9-Lives/X.TXT" eq_refl)))).
Defined.

(** C9. On one [knownFuncs]: the first call that yields a base
    registers it with the counter 2 and returns it bare; a later call
    that yields the same base returns the base followed by the counter
    and stores the counter plus one; so the calls of a sequence return
    the base, then the suffixes 2, 3, 4, ... in order. *)
Theorem C9_disambiguation (toLowerU toUpperU : string -> string)
    (names bases : list string) :
  Forall2 (fun n b => candidate toLowerU toUpperU n = Ret b) names bases ->
  Z.of_nat (length names) < 2 ^ 63 - 1 ->
  (forall name b known,
     candidate toLowerU toUpperU name = Ret b -> known !! b = None ->
     safeFunctionName toLowerU toUpperU name known = Ret (b, <[b := 2]> known)) /\
  (forall name b n known,
     candidate toLowerU toUpperU name = Ret b -> known !! b = Some n ->
     safeFunctionName toLowerU toUpperU name known
       = Ret (b ++ itoa n, <[b := int_add n 1]> known) /\
     (-2 ^ 63 <= n < 2 ^ 63 - 1 -> int_add n 1 = n + 1)) /\
  exists known',
    sanitize_all toLowerU toUpperU names ∅ = Ret (expected_ids [] bases, known') /\
    forall b, known' !! b = expected_counter bases b.
Proof.
  intros HF Hlen. split; [|split].
  - intros name b known Hc Hk.
    rewrite (safeFunctionName_candidate _ _ _ _ _ Hc).
    unfold disambiguate. rewrite Hk. reflexivity.
  - intros name b n known Hc Hk. split; [|apply int_add_1].
    rewrite (safeFunctionName_candidate _ _ _ _ _ Hc).
    unfold disambiguate. rewrite Hk. reflexivity.
  - destruct (sanitize_all_expected toLowerU toUpperU names bases [] ∅ HF)
      as (known' & Hrun & Hinv).
    + simpl. lia.
    + intros b. apply lookup_empty.
    + exists known'. split; [exact Hrun|].
      intros b. rewrite Hinv, app_nil_r. unfold expected_counter.
      rewrite count_occ_rev. reflexivity.
Qed.

Lemma C9_disambiguation_witness :
  fst <$> sanitize_all ascii_only ascii_only ["x.txt"; "y"; "x-txt"; "X/TXT"] ∅
  = Ret ["xTxt"; "y"; "xTxt2"; "xTxt3"].
Proof.
  destruct (C9_disambiguation ascii_only ascii_only
              ["x.txt"; "y"; "x-txt"; "X/TXT"] ["xTxt"; "y"; "xTxt"; "xTxt"])
    as (_ & _ & known' & Hrun & _).
  - repeat constructor.
  - vm_compute. reflexivity.
  - rewrite Hrun. reflexivity.
Defined.

(** C10, as the claim has it, fails.  The Kelvin sign is a non-empty
    name made only of a character outside [a-zA-Z0-9_], and each of its
    bytes is outside that class too.  Line 241 lowers the name before
    line 245 filters it, and the lower case of the Kelvin sign is the
    letter [k]: the function returns [k] and does not panic. *)
Lemma C10_kelvin_sign_no_panic :
  kelvin_sign <> "" /\
  string_forallb regFuncName_Match kelvin_sign = true /\
  isASCII kelvin_sign = false /\
  ToLower lower_kelvin kelvin_sign = "k" /\
  safeFunctionName lower_kelvin ascii_only kelvin_sign ∅
    = Ret ("k", <["k" := 2]> ∅).
Proof.
  split; [discriminate|]. repeat (split; [vm_compute; reflexivity|]).
  vm_compute. reflexivity.
Qed.

(** C10, amended.  A non-empty name whose lower case, as line 241
    computes it, is made only of bytes outside [a-zA-Z0-9_] is filtered
    to the empty string; the digit test then reads index 0 of that
    empty string and the function panics.  So it is for every ASCII
    name made only of characters outside [a-zA-Z0-9_], such as [-] or
    [--]: lowering leaves such a name as it is. *)
Theorem C10_panic_on_separators (toLowerU toUpperU : string -> string)
    (name : string) (known : gmap string Z) :
  name <> "" ->
  string_forallb regFuncName_Match (ToLower toLowerU name) = true \/
  (isASCII name = true /\ string_forallb regFuncName_Match name = true) ->
  scan toUpperU false (ToLower toLowerU name) = "" /\
  safeFunctionName toLowerU toUpperU name known = Panic.
Proof.
  intros _ H.
  assert (Hl : string_forallb regFuncName_Match (ToLower toLowerU name) = true).
  { destruct H as [Hl|[Ha Hout]]; [exact Hl|].
    unfold ToLower. rewrite Ha, string_map_lower_outside by exact Hout.
    exact Hout. }
  assert (Hs : scan toUpperU false (ToLower toLowerU name) = "").
  { apply scan_all_outside, Hl. }
  split; [exact Hs|].
  unfold safeFunctionName, candidate. rewrite Hs. reflexivity.
Qed.

Lemma C10_panic_on_separators_witness :
  ("--" <> "" /\ isASCII "--" = true /\ string_forallb regFuncName_Match "--" = true) /\
  safeFunctionName ascii_only ascii_only "--" ∅ = Panic.
Proof.
  split; [repeat split; discriminate || reflexivity|].
  apply (C10_panic_on_separators ascii_only ascii_only "--" ∅);
    [discriminate|right; split; reflexivity].
Defined.

(** ** Catalog *)

(** C1. The [Func] values of one catalog are not always distinct.  The
    directory [/d] holds [a-b], [a-b2] and [a.b]: [a-b] gets [aB],
    [a-b2] gets [aB2], and [a.b], the second name of base [aB], gets
    [aB] followed by the counter 2, which is [aB2] again.  The suffixed
    name is never entered in [knownFuncs]. *)
Theorem C1_func_collision :
  catalog_of (Translate_fs collide "/d" [] [mkInput "/d" true] 5)
    = Ret (OK [("/d/a-b", "a-b", "aB");
               ("/d/a-b2", "a-b2", "aB2");
               ("/d/a.b", "a.b", "aB2")]) /\
  fst <$> sanitize_all ascii_only ascii_only ["a-b"; "a-b2"; "a.b"] ∅
    = Ret ["aB"; "aB2"; "aB2"] /\
  ~ NoDup ["aB"; "aB2"; "aB2"].
Proof.
  split; [vm_compute; reflexivity|split; [vm_compute; reflexivity|]].
  intros H. inversion H as [|? ? _ H1]; subst.
  inversion H1 as [|? ? Hin _]; subst. apply Hin. left.
Qed.

(** C2. An error of a nested invocation does not reach the caller.
    In [/data/sub] the link [dead] points to a missing file: the
    invocation on [/data/sub/dead] returns the error of [os.Stat], line
    199 drops it, and the run ends without error, with a catalog.  With
    the prefix [/data/sub/z.txt] the file [/data/sub/z.txt] has an empty
    name: the invocation on [/data/sub] returns "Invalid file", which
    reaches the caller when [/data/sub] is an input, while line 184
    drops it when the input is [/data]. *)
Theorem C2_nested_errors_dropped :
  (forall st,
     findFiles ascii_only ascii_only (TreeFS.to_OS dangling) 5
       "/data/sub/dead" "/data" true [] st
     = Ret (st, Some "stat /data/sub/dead: no such file or directory")) /\
  catalog_of (Translate_fs dangling "/data" [] [mkInput "/data" true] 5)
    = Ret (OK [("/data/a.txt", "a.txt", "aTxt");
               ("/data/sub/z.txt", "sub/z.txt", "subZTxt")]) /\
  catalog_of (Translate_fs dangling "/data/sub/z.txt" [] [mkInput "/data/sub" true] 5)
    = Ret (Err "Invalid file: /data/sub/z.txt") /\
  catalog_of (Translate_fs dangling "/data/sub/z.txt" [] [mkInput "/data" true] 5)
    = Ret (OK [("/data/a.txt", "data/a.txt", "dataATxt")]).
Proof.
  split; [intros st; reflexivity|].
  repeat split; vm_compute; reflexivity.
Qed.

(** C6. A listing is walked in the order of its names.  The directory
    holds [b.txt], [a.txt] and [sub/c.txt].  Whatever
    the order in which it lists them, a walk without recursion yields
    [a.txt], [b.txt] in that order and no error, and a walk with
    recursion yields [a.txt], [b.txt], [sub/c.txt]; both when the
    directory is given by its absolute path with itself as prefix and
    when it is the working directory, given as [.] without prefix. *)
Theorem C6_scenario :
  (forall list, StronglySorted name_le (sort_byName list) /\
                Permutation list (sort_byName list)) /\
  Forall (fun entries =>
    names_of (Translate_fs (scenario entries) "/data" [] [mkInput "/data" false] 3)
      = Ret (OK ["a.txt"; "b.txt"]) /\
    names_of (Translate_fs (scenario entries) "/data" [] [mkInput "/data" true] 3)
      = Ret (OK ["a.txt"; "b.txt"; "sub/c.txt"]) /\
    names_of (Translate_fs (scenario entries) "" [] [mkInput "." false] 3)
      = Ret (OK ["a.txt"; "b.txt"]) /\
    names_of (Translate_fs (scenario entries) "" [] [mkInput "." true] 3)
      = Ret (OK ["a.txt"; "b.txt"; "sub/c.txt"]))
    scenario_orders.
Proof.
  split; [intros list; split; [apply sort_byName_sorted|apply sort_byName_perm]|].
  repeat constructor; vm_compute; reflexivity.
Qed.

(** ** Tree Walker *)

Lemma logical_name_no_leading_slash dir prefix file dirpath :
  leading_slash
    (logical_name dir prefix file (ToSlash (Join dirpath (fi_Name file)))) = false.
Proof.
  unfold logical_name. apply strip_leading_slash.
  destruct (HasPrefix _ _).
  - apply no_double_slash_drop, Join_no_double_slash.
  - apply Join_no_double_slash.
Qed.

(** What [add_file] does to the catalog. *)
Lemma add_file_toc toLowerU toUpperU os dir prefix file assetPath assetName st st' e :
  add_file toLowerU toUpperU os dir prefix file assetPath assetName st = Ret (st', e) ->
  toc st' = toc st \/
  exists func,
    toc st' = (toc st ++ [mkAsset (fst (Abs os assetPath))
                            (logical_name dir prefix file assetName) func])%list /\
    logical_name dir prefix file assetName <> "".
Proof.
  unfold add_file. case_decide as Hn.
  { intros H. inversion H; subst. left. reflexivity. }
  destruct (safeFunctionName _ _ _ _) as [[func known]| |]; simpl; try discriminate.
  destruct (Abs os assetPath) as [path [e1|]]; intros H; inversion H; subst; simpl.
  - left. reflexivity.
  - right. exists func. split; [reflexivity|exact Hn].
Qed.

Lemma good_name_add toLowerU toUpperU os dir dirpath prefix file st st' e :
  add_file toLowerU toUpperU os dir prefix file
    (Join dirpath (fi_Name file)) (ToSlash (Join dirpath (fi_Name file))) st
  = Ret (st', e) ->
  Forall good_name (toc st) -> Forall good_name (toc st').
Proof.
  intros Hadd H0.
  apply add_file_toc in Hadd as [->|(func & -> & Hne)]; [exact H0|].
  apply Forall_app. split; [exact H0|].
  constructor; [|constructor]. split; [exact Hne|].
  apply logical_name_no_leading_slash.
Qed.

Lemma findFiles_names_good toLowerU toUpperU os fuel dir prefix recursive ignore
    st st' e :
  findFiles toLowerU toUpperU os fuel dir prefix recursive ignore st = Ret (st', e) ->
  Forall good_name (toc st) -> Forall good_name (toc st').
Proof.
  apply (findFiles_preserves toLowerU toUpperU os ignore
           (fun st => Forall good_name (toc st))).
  - intros p st0 H0. exact H0.
  - intros d dirpath prefix' file st0 st1 e1 _. apply good_name_add.
Qed.

Lemma Translate_names_good toLowerU toUpperU os fuel prefix ignore inputs catalog :
  Translate toLowerU toUpperU os fuel prefix ignore inputs = Ret (OK catalog) ->
  Forall good_name catalog.
Proof.
  unfold Translate.
  destruct (Translate_loop _ _ _ _ _ _ _ _) as [[st [e|]]| |] eqn:E;
    simpl; try discriminate.
  intros H. inversion H; subst. clear H.
  apply (Translate_loop_preserves toLowerU toUpperU os ignore
           (fun st => Forall good_name (toc st))) in E.
  - exact E.
  - intros p st0 H0. exact H0.
  - intros d dirpath prefix' file st0 st1 e1 _. apply good_name_add.
  - constructor.
Qed.

Lemma walk_invalid_file toLowerU toUpperU os (recur : walker)
    dir dirpath prefix recursive ignore file rest st :
  ignoring ignore (Join dirpath (fi_Name file)) = false ->
  fi_IsDir file = false -> fi_ModeSymlink file = false ->
  logical_name dir prefix file (ToSlash (Join dirpath (fi_Name file))) = "" ->
  walk toLowerU toUpperU os recur dir dirpath prefix recursive ignore
       (file :: rest) st
  = Ret (st, Some ("Invalid file: " ++ Join dirpath (fi_Name file))).
Proof.
  intros Hi Hd Hl Hn. simpl. rewrite visit_file by assumption.
  unfold add_file. rewrite Hn. reflexivity.
Qed.

(** C7. The name of an asset that [findFiles] appends is not empty and
    does not begin with [/]; so it is for every asset of a catalog.
    With the prefix [/data] the file [/data/icons/x.png] is named
    [icons/x.png].  A file whose name is empty once the prefix and the
    leading [/] are removed is not added: the invocation that meets it
    returns the error "Invalid file" with the file's path, and a run
    whose input is that invocation's directory fails with it. *)
Theorem C7_asset_names (toLowerU toUpperU : string -> string) (os : OS)
    (fuel : nat) (dir prefix : string) (recursive : bool) (ignore : list Regexp)
    (st st' : State) (e : option error) :
  findFiles toLowerU toUpperU os fuel dir prefix recursive ignore st = Ret (st', e) ->
  Forall (fun a => Name a <> "" /\ leading_slash (Name a) = false) (toc st) ->
  Forall (fun a => Name a <> "" /\ leading_slash (Name a) = false) (toc st') /\
  (forall inputs catalog,
     Translate toLowerU toUpperU os fuel prefix ignore inputs = Ret (OK catalog) ->
     Forall (fun a => Name a <> "" /\ leading_slash (Name a) = false) catalog) /\
  catalog_of (Translate_fs icons "/data" [] [mkInput "/data" true] 4)
    = Ret (OK [("/data/icons/x.png", "icons/x.png", "iconsXPng")]) /\
  (forall (recur : walker) dirpath file rest,
     ignoring ignore (Join dirpath (fi_Name file)) = false ->
     fi_IsDir file = false -> fi_ModeSymlink file = false ->
     logical_name dir prefix file (ToSlash (Join dirpath (fi_Name file))) = "" ->
     walk toLowerU toUpperU os recur dir dirpath prefix recursive ignore
          (file :: rest) st
     = Ret (st, Some ("Invalid file: " ++ Join dirpath (fi_Name file)))) /\
  Translate_fs dangling "/data/sub/z.txt" [] [mkInput "/data/sub" true] 5
    = Ret (Err "Invalid file: /data/sub/z.txt").
Proof.
  intros H H0. split; [|split; [|split; [|split]]].
  - exact (findFiles_names_good _ _ _ _ _ _ _ _ _ _ _ H H0).
  - intros inputs catalog Ht. exact (Translate_names_good _ _ _ _ _ _ _ _ Ht).
  - vm_compute. reflexivity.
  - intros. apply walk_invalid_file; assumption.
  - vm_compute. reflexivity.
Qed.

Lemma C7_asset_names_witness :
  (exists st',
     findFiles ascii_only ascii_only (TreeFS.to_OS icons) 4 "/data" "/data" true []
       empty_state = Ret (st', None) /\
     map Name (toc st') = ["icons/x.png"] /\
     Forall (fun a => Name a <> "" /\ leading_slash (Name a) = false) (toc st')).
Proof.
  eexists. split; [vm_compute; reflexivity|]. split; [reflexivity|].
  refine (proj1 (C7_asset_names ascii_only ascii_only (TreeFS.to_OS icons) 4
                   "/data" "/data" true [] empty_state _ None _ _)).
  - vm_compute. reflexivity.
  - constructor.
Defined.

(** No asset of the catalog was found under a path that matches an
    ignore pattern. *)
Lemma Translate_not_ignored toLowerU toUpperU os fuel prefix ignore inputs catalog :
  Translate toLowerU toUpperU os fuel prefix ignore inputs = Ret (OK catalog) ->
  Forall (fun a => exists p, ignoring ignore p = false /\ Path a = fst (Abs os p))
    catalog.
Proof.
  unfold Translate.
  destruct (Translate_loop _ _ _ _ _ _ _ _) as [[st [e|]]| |] eqn:E;
    simpl; try discriminate.
  intros H. inversion H; subst. clear H.
  apply (Translate_loop_preserves toLowerU toUpperU os ignore
           (fun st => Forall (fun a => exists p, ignoring ignore p = false /\
                                         Path a = fst (Abs os p)) (toc st))) in E.
  - exact E.
  - intros p st0 H0. exact H0.
  - intros dir dirpath prefix' file st0 st' e Hi Hadd H0.
    apply add_file_toc in Hadd as [->|(func & -> & _)]; [exact H0|].
    apply Forall_app. split; [exact H0|].
    constructor; [|constructor]. eexists. split; [exact Hi|reflexivity].
  - constructor.
Qed.

(** C5, as the claim has it, fails.  The pattern matches the path
    [/data/sub] and no other.  Where [/data] lists [sub] the entry is
    skipped, and a run on [/data] alone has nothing of it.  But the
    directory that [findFiles] is called on is not tested against the
    patterns: when [/data/sub] is an input too, or the only one, its
    file [c.txt], a descendant of the ignored entry, is in the
    catalog. *)
Lemma C5_ignored_root_walked :
  ignoring [mkRegexp (String.eqb "/data/sub")] (Join "/data" "sub") = true /\
  ignoring [mkRegexp (String.eqb "/data/sub")] (Join "/data/sub" "c.txt") = false /\
  catalog_of (Translate_fs (scenario scenario_entries) "/data"
                [mkRegexp (String.eqb "/data/sub")] [mkInput "/data" true] 3)
    = Ret (OK [("/data/a.txt", "a.txt", "aTxt"); ("/data/b.txt", "b.txt", "bTxt")]) /\
  catalog_of (Translate_fs (scenario scenario_entries) "/data"
                [mkRegexp (String.eqb "/data/sub")]
                [mkInput "/data" true; mkInput "/data/sub" true] 3)
    = Ret (OK [("/data/a.txt", "a.txt", "aTxt"); ("/data/b.txt", "b.txt", "bTxt");
               ("/data/sub/c.txt", "sub/c.txt", "subCTxt")]) /\
  catalog_of (Translate_fs (scenario scenario_entries) "/data"
                [mkRegexp (String.eqb "/data/sub")] [mkInput "/data/sub" true] 3)
    = Ret (OK [("/data/sub/c.txt", "sub/c.txt", "subCTxt")]).
Proof. repeat split; vm_compute; reflexivity. Qed.

(** C5, amended.  An entry of a listing whose path matches an ignore
    pattern is skipped: the state is unchanged, whatever a recursive
    call would have done, and the walk goes on as if the entry were not
    listed.  So nothing is reached through it: discovery is the same on
    the file system that does not list such entries, and every asset of
    the catalog was found under a path that matches no pattern. *)
Theorem C5_ignored_entry_skipped (toLowerU toUpperU : string -> string) (os : OS)
    (recur : walker) (dir dirpath prefix : string) (recursive : bool)
    (ignore : list Regexp) (file : FileInfo) (rest : list FileInfo) (st : State) :
  ignoring ignore (Join dirpath (fi_Name file)) = true ->
  visit toLowerU toUpperU os recur dir dirpath prefix recursive ignore file st
    = Ret (st, None) /\
  walk toLowerU toUpperU os recur dir dirpath prefix recursive ignore
       (file :: rest) st
    = walk toLowerU toUpperU os recur dir dirpath prefix recursive ignore rest st /\
  (forall fuel d p r s,
     findFiles toLowerU toUpperU os fuel d p r ignore s
     = findFiles toLowerU toUpperU (hide ignore os) fuel d p r ignore s) /\
  (forall fuel p inputs catalog,
     Translate toLowerU toUpperU os fuel p ignore inputs = Ret (OK catalog) ->
     Forall (fun a => exists q, ignoring ignore q = false /\ Path a = fst (Abs os q))
       catalog).
Proof.
  intros H. split; [|split; [|split]].
  - apply visit_ignored, H.
  - simpl. rewrite visit_ignored by exact H. reflexivity.
  - intros. apply findFiles_hide.
  - intros. eapply Translate_not_ignored; eassumption.
Qed.

Lemma C5_ignored_entry_skipped_witness :
  ignoring [mkRegexp (String.eqb "/data/sub")] (Join "/data" "sub") = true /\
  visit ascii_only ascii_only (TreeFS.to_OS (scenario scenario_entries))
    (fun _ _ => Panic) "/data" "/data" "/data" true
    [mkRegexp (String.eqb "/data/sub")] (mkFileInfo "sub" true false) empty_state
  = Ret (empty_state, None).
Proof.
  split; [reflexivity|].
  exact (proj1 (C5_ignored_entry_skipped ascii_only ascii_only
    (TreeFS.to_OS (scenario scenario_entries)) (fun _ _ => Panic)
    "/data" "/data" "/data" true [mkRegexp (String.eqb "/data/sub")]
    (mkFileInfo "sub" true false) [] empty_state eq_refl)).
Defined.




(** C3.  In [/cwd/r] the link [a/loop] points to [..], that is to [r]
    itself.  From the working directory [/cwd], with the input [r] and
    no prefix, the directories entered are recorded under the relative
    paths [r], [r/a], [r/a/loop], ... while the link is looked up under
    the absolute paths [/cwd/r], [/cwd/r/a/loop], ...: the look-up never
    succeeds, and the link is followed again at every level.  The walk
    ends only when [os.Stat] refuses the path for its number of links,
    and that error is dropped.  When the system follows at most [n]
    links, [f.txt] is in the catalog [n + 1] times and the recursion is
    [2 * n + 3] calls deep; with Linux's 40 links, 41 times, each of
    them the file [/cwd/r/f.txt].  With the absolute prefix [/cwd/r]
    the paths are compared in absolute form and the link is skipped. *)
Theorem C3_cycle_not_cut :
  (forall n,
     names_of (Translate_fs (cycle n) "" [] [mkInput "r" true] (2 * n + 3))
     = Ret (OK (map cycle_name (rev (seq 0 (S n)))))) /\
  (forall n,
     Translate_fs (cycle n) "" [] [mkInput "r" true] (2 * n + 2) = OutOfFuel) /\
  (exists catalog,
     Translate_fs (cycle 40) "" [] [mkInput "r" true] 100 = Ret (OK catalog) /\
     length catalog = 41%nat /\
     Forall (fun a => TreeFS.locate (cycle 40) true (Path a)
                      = OK ["cwd"; "r"; "f.txt"]) catalog) /\
  (link_key (TreeFS.to_OS (cycle 40)) "r/a" (mkFileInfo "loop" false true)
     = OK "/cwd/r" /\
   is_visited "/cwd/r" (mark_visited "r/a" (mark_visited "r" empty_state)) = false) /\
  names_of (Translate_fs (cycle 40) "/cwd/r" [] [mkInput "r" true] 100)
    = Ret (OK ["f.txt"]).
Proof.
  split; [intros n; apply cycle_catalog; lia|].
  split; [intros n; apply cycle_out_of_fuel; lia|].
  split.
  { eexists. split; [vm_compute; reflexivity|].
    split; [reflexivity|]. repeat constructor. }
  split; [split; vm_compute; reflexivity|].
  vm_compute. reflexivity.
Qed.

(* ================================================================= *)
(** * Further properties of the code *)

(** ** Lemmas *)

Section SanitizerMore.

Variables toLowerU toUpperU : string -> string.

Lemma string_forallb_app p a b :
  string_forallb p (a ++ b) = string_forallb p a && string_forallb p b.
Proof.
  induction a as [|c a IH]; [reflexivity|].
  change (String c a ++ b) with (String c (a ++ b)). simpl.
  rewrite IH, andb_assoc. reflexivity.
Qed.

Lemma upper_byte_ident b : ident_byte b = true -> ident_byte (upper_byte b) = true.
Proof. destruct b as [[] [] [] [] [] [] [] []]; vm_compute; congruence. Qed.

Lemma scan_ident s : forall up,
  string_forallb ident_byte (scan toUpperU up s) = true.
Proof.
  induction s as [|c s IH]; intros up; [reflexivity|].
  rewrite scan_cons. destruct (ident_byte c) eqn:E; [|apply IH].
  simpl. rewrite IH, andb_true_r.
  destruct up; [apply upper_byte_ident, E|exact E].
Qed.

Lemma candidate_valid name id :
  candidate toLowerU toUpperU name = Ret id -> valid_ident id.
Proof.
  unfold candidate.
  pose proof (scan_ident (ToLower toLowerU name) false) as Hs.
  destruct (scan toUpperU false (ToLower toLowerU name)) as [|c r] eqn:E;
    [discriminate|].
  intros H. inversion H; subst. clear H.
  unfold unicode_IsDigit_byte. destruct (is_digit c) eqn:Ed.
  - split; [|reflexivity].
    change ("_" ++ String c r) with (String "_" (String c r)).
    change (string_forallb ident_byte (String "_" (String c r)))
      with (ident_byte "_" && string_forallb ident_byte (String c r)).
    rewrite Hs. reflexivity.
  - split; [exact Hs|exact Ed].
Qed.

Lemma uint_digits d : string_forallb is_digit (NilEmpty.string_of_uint d) = true.
Proof. induction d; simpl; auto. Qed.

Lemma itoa_digits n : 0 <= n -> string_forallb is_digit (itoa n) = true.
Proof.
  intros Hn. unfold itoa. destruct n as [|p|p]; [reflexivity| |lia].
  simpl. unfold NilZero.string_of_uint.
  destruct (Pos.to_uint p); try reflexivity; apply uint_digits.
Qed.

Lemma digit_ident c : is_digit c = true -> ident_byte c = true.
Proof. destruct c as [[] [] [] [] [] [] [] []]; vm_compute; congruence. Qed.

Lemma string_forallb_impl (p q : ascii -> bool) s :
  (forall c, p c = true -> q c = true) ->
  string_forallb p s = true -> string_forallb q s = true.
Proof.
  intros Hpq. induction s as [|c s IH]; [reflexivity|]. simpl.
  intros H. apply andb_true_iff in H as [Hc Hs].
  rewrite (Hpq c Hc), IH by exact Hs. reflexivity.
Qed.

Lemma valid_ident_app id d :
  valid_ident id -> string_forallb is_digit d = true -> valid_ident (id ++ d).
Proof.
  intros [Hall Hfirst] Hd. split.
  - rewrite string_forallb_app, Hall.
    apply (string_forallb_impl is_digit ident_byte d digit_ident Hd).
  - destruct id as [|c r]; [contradiction|exact Hfirst].
Qed.

End SanitizerMore.

Section CatalogFuncs.

Variables toLowerU toUpperU : string -> string.
Variable os : OS.
Variable wd : string.
Hypothesis Getwd_ok : Getwd os = OK wd.

Lemma Abs_ok p : snd (Abs os p) = None.
Proof. unfold Abs. rewrite Getwd_ok. destruct (IsAbs p); reflexivity. Qed.

Lemma funcs_ok_add dir prefix file assetPath assetName st st' e :
  add_file toLowerU toUpperU os dir prefix file assetPath assetName st = Ret (st', e) ->
  funcs_ok st -> funcs_ok st'.
Proof.
  unfold add_file. case_decide as Hn.
  { intros H. inversion H; subst. auto. }
  unfold safeFunctionName.
  destruct (candidate toLowerU toUpperU _) as [base| |] eqn:Ec; try discriminate.
  simpl. pose proof (Abs_ok assetPath) as Ha.
  destruct (Abs os assetPath) as [path e1]. simpl in Ha. subst e1.
  pose proof (candidate_valid _ _ _ _ Ec) as Hv.
  unfold disambiguate.
  destruct (knownFuncs st !! base) as [n|] eqn:En;
    intros H; inversion H; subst; clear H; intros Hok Hlen; simpl in *;
    rewrite length_app in *; simpl in *;
    destruct Hok as [Hc Hf]; try lia.
  - pose proof (Hc _ _ En) as Hn2. split.
    + intros b m. destruct (decide (base = b)) as [<-|Hne].
      * rewrite lookup_insert_eq. intros [= <-].
        rewrite int_add_1 by lia. lia.
      * rewrite lookup_insert_ne by exact Hne. intros Hb.
        specialize (Hc _ _ Hb). lia.
    + apply Forall_app. split; [exact Hf|]. constructor; [|constructor].
      simpl. apply valid_ident_app; [exact Hv|]. apply itoa_digits. lia.
  - split.
    + intros b m. destruct (decide (base = b)) as [<-|Hne].
      * rewrite lookup_insert_eq. intros [= <-]. lia.
      * rewrite lookup_insert_ne by exact Hne. intros Hb.
        specialize (Hc _ _ Hb). lia.
    + apply Forall_app. split; [exact Hf|]. constructor; [|constructor].
      exact Hv.
Qed.

End CatalogFuncs.

Section Uniqueness.

Variables toLowerU toUpperU : string -> string.

Lemma itoa_inj n m : itoa n = itoa m -> n = m.
Proof.
  assert (Hnil : forall z, Z.to_int z <> Decimal.Pos Decimal.Nil /\
                           Z.to_int z <> Decimal.Neg Decimal.Nil).
  { intros [|p|p]; simpl; split; try discriminate;
      intros [= H]; exact (DecimalPos.Unsigned.to_uint_nonnil p H). }
  unfold itoa. intros H. apply (f_equal NilZero.int_of_string) in H.
  rewrite !NilZero.isi in H by apply Hnil.
  injection H as H. apply DecimalZ.to_int_inj, H.
Qed.

Lemma itoa_nonempty n : itoa n <> "".
Proof.
  unfold itoa. destruct (Z.to_int n) as [d|d]; simpl; [|discriminate].
  destruct d; discriminate.
Qed.

Lemma string_app_nil_r (a : string) : a ++ "" = a.
Proof.
  induction a as [|c a IH]; [reflexivity|].
  change (String c (a ++ "") = String c a). f_equal. exact IH.
Qed.

Lemma all_digits_ends s :
  s <> "" -> string_forallb is_digit s = true -> ends_digit s = true.
Proof.
  induction s as [|c s IH]; [congruence|]. intros _ H.
  simpl in H. apply andb_true_iff in H as [Hc Hs].
  destruct s as [|c' s']; [exact Hc|]. apply IH; [discriminate|exact Hs].
Qed.

Lemma ends_digit_tail c r : ends_digit (String c r) = false -> ends_digit r = false.
Proof. destruct r; [reflexivity|auto]. Qed.

(** A string splits in one way into a part that does not end in a digit
    and a run of digits. *)
Lemma digit_suffix_unique b : forall b' d d',
  ends_digit b = false -> ends_digit b' = false ->
  string_forallb is_digit d = true -> string_forallb is_digit d' = true ->
  b ++ d = b' ++ d' -> b = b' /\ d = d'.
Proof.
  induction b as [|c b IH]; intros b' d d' Hb Hb' Hd Hd' H.
  - destruct b' as [|c' b']; [split; [reflexivity|exact H]|].
    exfalso. change ("" ++ d) with d in H. subst d.
    rewrite string_forallb_app in Hd. apply andb_true_iff in Hd as [Hd _].
    rewrite all_digits_ends in Hb' by (discriminate || exact Hd). discriminate.
  - destruct b' as [|c' b'].
    + exfalso. change ("" ++ d') with d' in H. subst d'.
      rewrite string_forallb_app in Hd'. apply andb_true_iff in Hd' as [Hd' _].
      rewrite all_digits_ends in Hb by (discriminate || exact Hd'). discriminate.
    + change (String c (b ++ d) = String c' (b' ++ d')) in H.
      injection H as -> H.
      destruct (IH b' d d' (ends_digit_tail _ _ Hb) (ends_digit_tail _ _ Hb')
                  Hd Hd' H) as [-> ->].
      split; reflexivity.
Qed.

Lemma expected_id_inj prev prev' b b' :
  ends_digit b = false -> ends_digit b' = false ->
  expected_id prev b = expected_id prev' b' ->
  b = b' /\ count_occ string_dec prev b = count_occ string_dec prev' b'.
Proof.
  intros Hb Hb'. unfold expected_id.
  destruct (count_occ string_dec prev b) as [|k];
    destruct (count_occ string_dec prev' b') as [|k']; intros H.
  - split; [exact H|reflexivity].
  - exfalso. rewrite <- (string_app_nil_r b) in H.
    apply digit_suffix_unique in H as [_ H]; auto.
    + symmetry in H. exact (itoa_nonempty _ H).
    + apply itoa_digits. lia.
  - exfalso. rewrite <- (string_app_nil_r b') in H.
    apply digit_suffix_unique in H as [_ H]; auto.
    + exact (itoa_nonempty _ H).
    + apply itoa_digits. lia.
  - apply digit_suffix_unique in H as [-> H]; auto;
      try (apply itoa_digits; lia).
    apply itoa_inj in H. split; [reflexivity|lia].
Qed.

Lemma in_expected_ids x rest : forall prev,
  In x (expected_ids prev rest) ->
  exists b prev',
    x = expected_id prev' b /\ In b rest /\
    forall b0, (count_occ string_dec prev b0 <= count_occ string_dec prev' b0)%nat.
Proof.
  induction rest as [|b rest IH]; intros prev H; [destruct H|].
  destruct H as [<-|H].
  - exists b, prev. split; [reflexivity|]. split; [left; reflexivity|]. intros; lia.
  - destruct (IH _ H) as (b1 & prev' & Hx & Hin & Hc).
    exists b1, prev'. split; [exact Hx|]. split; [right; exact Hin|].
    intros b0. specialize (Hc b0). simpl in Hc.
    destruct (string_dec b b0); lia.
Qed.

Lemma expected_ids_NoDup bases : forall prev,
  Forall (fun b => ends_digit b = false) bases ->
  List.NoDup (expected_ids prev bases).
Proof.
  induction bases as [|b rest IH]; intros prev HF; [constructor|].
  inversion HF as [|? ? Hb Hrest]; subst. simpl. constructor; [|apply IH, Hrest].
  intros Hin. apply in_expected_ids in Hin as (b1 & prev' & Hx & Hin & Hc).
  rewrite List.Forall_forall in Hrest.
  apply expected_id_inj in Hx as [<- Hx]; [|exact Hb|apply Hrest, Hin].
  specialize (Hc b). rewrite count_occ_cons_eq in Hc by reflexivity. lia.
Qed.

End Uniqueness.

Section SanitizerShape.

Variables toLowerU toUpperU : string -> string.

Lemma spec_class_facts c :
  spec_class c = true ->
  byte_is_ascii c = true /\ lower_byte c = c /\ ident_byte c = true.
Proof. destruct c as [[] [] [] [] [] [] [] []]; vm_compute; intuition congruence. Qed.

Lemma scan_spec_class s :
  string_forallb spec_class s = true -> scan toUpperU false s = s.
Proof.
  induction s as [|c s IH]; [reflexivity|]. simpl string_forallb.
  intros H. apply andb_true_iff in H as [Hc Hs].
  rewrite scan_cons. destruct (spec_class_facts c Hc) as (_ & _ & ->).
  rewrite IH by exact Hs. reflexivity.
Qed.

Lemma ToLower_spec_class s :
  string_forallb spec_class s = true -> ToLower toLowerU s = s.
Proof.
  intros H. unfold ToLower.
  assert (Ha : isASCII s = true).
  { apply (string_forallb_impl spec_class byte_is_ascii); [|exact H].
    intros c Hc. apply (spec_class_facts c Hc). }
  rewrite Ha. clear Ha.
  induction s as [|c s IH]; [reflexivity|]. simpl in *.
  apply andb_true_iff in H as [Hc Hs].
  destruct (spec_class_facts c Hc) as (_ & -> & _). rewrite IH by exact Hs.
  reflexivity.
Qed.

Lemma scan_nonempty s : forall up,
  string_forallb regFuncName_Match s = false -> scan toUpperU up s <> "".
Proof.
  induction s as [|c s IH]; intros up H; [discriminate|].
  rewrite scan_cons. simpl in H. unfold regFuncName_Match in H at 1.
  destruct (ident_byte c); [discriminate|]. apply IH. exact H.
Qed.

Lemma lower_byte_Match c : regFuncName_Match (lower_byte c) = regFuncName_Match c.
Proof. destruct c as [[] [] [] [] [] [] [] []]; vm_compute; reflexivity. Qed.

Lemma string_map_lower_Match s :
  string_forallb regFuncName_Match (string_map lower_byte s)
  = string_forallb regFuncName_Match s.
Proof.
  induction s as [|c s IH]; [reflexivity|]. simpl.
  rewrite lower_byte_Match, IH. reflexivity.
Qed.

Lemma scan_app a : forall up b,
  scan toUpperU up (a ++ b)
  = scan toUpperU up a ++ scan toUpperU (pending up a) b.
Proof.
  induction a as [|c a IH]; intros up b; [reflexivity|].
  change (String c a ++ b) with (String c (a ++ b)).
  rewrite !scan_cons. simpl pending. unfold regFuncName_Match.
  destruct (ident_byte c); simpl negb; rewrite IH; reflexivity.
Qed.

Lemma string_map_app f a b :
  string_map f (a ++ b) = string_map f a ++ string_map f b.
Proof.
  induction a as [|c a IH]; [reflexivity|].
  change (String c a ++ b) with (String c (a ++ b)). simpl. rewrite IH.
  reflexivity.
Qed.

Lemma scan_outside up c s :
  regFuncName_Match c = true -> scan toUpperU up (String c s) = scan toUpperU true s.
Proof. intros H. simpl. rewrite H. reflexivity. Qed.

Lemma candidate_ascii name :
  isASCII name = true ->
  candidate toLowerU toUpperU name
  = match scan toUpperU false (string_map lower_byte name) with
    | EmptyString => Panic
    | String c r => Ret (if is_digit c then "_" ++ String c r else String c r)
    end.
Proof.
  intros Ha. unfold candidate, ToLower, unicode_IsDigit_byte. rewrite Ha.
  destruct (scan toUpperU false (string_map lower_byte name)); reflexivity.
Qed.

End SanitizerShape.

Lemma grows_refl st : grows st st.
Proof.
  split; [exists []; symmetry; apply app_nil_r|]. split; auto.
Qed.

Lemma grows_trans st1 st2 st3 : grows st1 st2 -> grows st2 st3 -> grows st1 st3.
Proof.
  intros ([a1 H1] & V1 & K1) ([a2 H2] & V2 & K2). split; [|split; auto].
  exists (a1 ++ a2)%list. rewrite H2, H1, <- app_assoc. reflexivity.
Qed.

Lemma is_visited_mark p q st :
  is_visited p (mark_visited q st) = true <-> p = q \/ is_visited p st = true.
Proof.
  unfold is_visited, mark_visited. simpl.
  destruct (decide (q = p)) as [->|Hne].
  - rewrite lookup_insert_eq. split; [intros _; left|intros _]; reflexivity.
  - rewrite lookup_insert_ne by exact Hne.
    split; [intros H; right; exact H|]. intros [->|H]; [contradiction|exact H].
Qed.

Lemma grows_mark p st : grows st (mark_visited p st).
Proof.
  split; [exists []; symmetry; apply app_nil_r|]. split; [|auto].
  intros q H. apply is_visited_mark. right. exact H.
Qed.

Lemma disambiguate_keeps base known b :
  is_Some (known !! b) -> is_Some (snd (disambiguate base known) !! b).
Proof.
  intros H. unfold disambiguate.
  destruct (known !! base) eqn:E; simpl;
    (destruct (decide (base = b)) as [<-|Hne];
     [rewrite lookup_insert_eq; eauto|rewrite lookup_insert_ne by exact Hne; exact H]).
Qed.

Section Growth.

Variables toLowerU toUpperU : string -> string.
Variable os : OS.

Lemma grows_add dir prefix file assetPath assetName st st' e :
  add_file toLowerU toUpperU os dir prefix file assetPath assetName st = Ret (st', e) ->
  grows st st'.
Proof.
  unfold add_file. case_decide as Hn.
  { intros H. inversion H; subst. apply grows_refl. }
  unfold safeFunctionName.
  destruct (candidate toLowerU toUpperU _) as [base| |] eqn:Ec; try discriminate.
  simpl. pose proof (disambiguate_keeps base (knownFuncs st)) as Hk.
  destruct (disambiguate base (knownFuncs st)) as [f known]. simpl in *.
  destruct (Abs os assetPath) as [path [e1|]]; intros H; inversion H; subst; clear H.
  - split; [exists []; symmetry; apply app_nil_r|]. split; auto.
  - split; [eexists; reflexivity|]. split; auto.
Qed.

Lemma findFiles_grows_from st0 fuel dir prefix recursive ignore st st' e :
  findFiles toLowerU toUpperU os fuel dir prefix recursive ignore st = Ret (st', e) ->
  grows st0 st -> grows st0 st'.
Proof.
  intros H. revert dir st st' e H.
  apply (findFiles_preserves toLowerU toUpperU os ignore (grows st0)).
  - intros p s Hs. eapply grows_trans; [exact Hs|apply grows_mark].
  - intros d dirpath prefix' file s s' e _ Ha Hs.
    eapply grows_trans; [exact Hs|]. eapply grows_add. exact Ha.
Qed.

End Growth.

Section Replay.

Variables toLowerU toUpperU : string -> string.
Variable os : OS.
Variable wd : string.
Hypothesis Getwd_ok : Getwd os = OK wd.

Lemma sanitize_all_snoc names : forall known ids k1 n f k2,
  sanitize_all toLowerU toUpperU names known = Ret (ids, k1) ->
  safeFunctionName toLowerU toUpperU n k1 = Ret (f, k2) ->
  sanitize_all toLowerU toUpperU (names ++ [n]) known = Ret ((ids ++ [f])%list, k2).
Proof.
  induction names as [|m names IH]; intros known ids k1 n f k2 H1 H2.
  - simpl in H1. inversion H1; subst. simpl. rewrite H2. reflexivity.
  - simpl in H1. simpl.
    destruct (safeFunctionName toLowerU toUpperU m known) as [[g k]| |];
      simpl in *; try discriminate.
    destruct (sanitize_all toLowerU toUpperU names k) as [[gs k']| |] eqn:E;
      simpl in *; try discriminate.
    inversion H1; subst. rewrite (IH _ _ _ _ _ _ E H2). reflexivity.
Qed.

Lemma replays_add dir prefix file assetPath assetName st st' e :
  add_file toLowerU toUpperU os dir prefix file assetPath assetName st = Ret (st', e) ->
  replays toLowerU toUpperU st -> replays toLowerU toUpperU st'.
Proof.
  unfold add_file. case_decide as Hn.
  { intros H. inversion H; subst. auto. }
  destruct (safeFunctionName toLowerU toUpperU _ (knownFuncs st))
    as [[f known]| |] eqn:Es; try discriminate.
  simpl. pose proof (Abs_ok os wd Getwd_ok assetPath) as Ha.
  destruct (Abs os assetPath) as [path e1]. simpl in Ha. subst e1.
  intros H Hr. inversion H; subst; clear H. unfold replays in *. simpl.
  rewrite !map_app. simpl. eapply sanitize_all_snoc; eassumption.
Qed.

Lemma Translate_replays fuel prefix ignore inputs catalog :
  Translate toLowerU toUpperU os fuel prefix ignore inputs = Ret (OK catalog) ->
  exists known,
    sanitize_all toLowerU toUpperU (map Name catalog) ∅ = Ret (map Func catalog, known).
Proof.
  unfold Translate.
  destruct (Translate_loop _ _ _ _ _ _ _ _) as [[st [e|]]| |] eqn:E;
    simpl; try discriminate.
  intros H. inversion H; subst. clear H. exists (knownFuncs st).
  apply (Translate_loop_preserves toLowerU toUpperU os ignore
           (replays toLowerU toUpperU)) in E.
  - exact E.
  - intros p st0 H0. exact H0.
  - intros d dirpath prefix' file st0 st1 e1 _. apply replays_add.
  - reflexivity.
Qed.

Lemma sanitize_all_bases names : forall known r,
  sanitize_all toLowerU toUpperU names known = Ret r ->
  exists bases,
    Forall2 (fun n b => candidate toLowerU toUpperU n = Ret b) names bases.
Proof.
  induction names as [|n names IH]; intros known r H.
  - exists []. constructor.
  - simpl in H. unfold safeFunctionName in H at 1.
    destruct (candidate toLowerU toUpperU n) as [b| |] eqn:Ec; try discriminate.
    simpl in H. destruct (disambiguate b known) as [f known1].
    destruct (sanitize_all toLowerU toUpperU names known1) as [r'| |] eqn:E;
      try discriminate.
    destruct (IH _ _ E) as [bases HF]. exists (b :: bases). constructor; assumption.
Qed.

End Replay.

Section Listing.

Variables toLowerU toUpperU : string -> string.

Lemma name_le_antisym a b : name_le a b -> name_le b a -> fi_Name a = fi_Name b.
Proof.
  unfold name_le, byName_Less, string_lt, String.ltb.
  rewrite (String.compare_antisym (fi_Name b) (fi_Name a)).
  destruct (String.compare (fi_Name a) (fi_Name b)) eqn:E; simpl; try discriminate.
  intros _ _. apply String.compare_eq_iff. exact E.
Qed.

Lemma sorted_perm_unique l1 : forall l2,
  StronglySorted name_le l1 -> StronglySorted name_le l2 ->
  Permutation l1 l2 -> List.NoDup (map fi_Name l1) -> l1 = l2.
Proof.
  induction l1 as [|x l1 IH]; intros l2 S1 S2 HP HN.
  - apply Permutation_nil in HP. congruence.
  - destruct l2 as [|y l2].
    { apply Permutation_sym, Permutation_nil in HP. discriminate. }
    apply StronglySorted_inv in S1 as [S1 F1].
    apply StronglySorted_inv in S2 as [S2 F2].
    inversion HN as [|? ? Hx HN']; subst.
    assert (Hxy : x = y).
    { assert (Hin : In x (y :: l2)).
      { eapply Permutation_in; [exact HP|left; reflexivity]. }
      destruct Hin as [Hin|Hin]; [congruence|].
      assert (Hin' : In y (x :: l1)).
      { eapply Permutation_in; [apply Permutation_sym, HP|left; reflexivity]. }
      destruct Hin' as [Hin'|Hin']; [congruence|].
      rewrite List.Forall_forall in F1, F2.
      pose proof (name_le_antisym _ _ (F1 _ Hin') (F2 _ Hin)) as Hn.
      exfalso. apply Hx. rewrite Hn. apply in_map. exact Hin'. }
    subst y. f_equal. apply IH; try assumption.
    eapply Permutation_cons_inv. exact HP.
Qed.

Lemma sort_byName_order l1 l2 :
  Permutation l1 l2 -> List.NoDup (map fi_Name l1) ->
  sort_byName l1 = sort_byName l2.
Proof.
  intros HP HN. apply sorted_perm_unique.
  - apply sort_byName_sorted.
  - apply sort_byName_sorted.
  - rewrite <- (sort_byName_perm l1), <- (sort_byName_perm l2). exact HP.
  - eapply Permutation_NoDup; [|exact HN].
    apply Permutation_map, sort_byName_perm.
Qed.

Section TwoSystems.

Variables os1 os2 : OS.
Hypothesis Hre : relisted os1 os2.

Lemma relisted_Abs p : Abs os1 p = Abs os2 p.
Proof. unfold Abs. rewrite (proj1 Hre). reflexivity. Qed.

Lemma relisted_visit (recur : walker) dir dirpath prefix recursive ignore file st :
  visit toLowerU toUpperU os1 recur dir dirpath prefix recursive ignore file st
  = visit toLowerU toUpperU os2 recur dir dirpath prefix recursive ignore file st.
Proof.
  destruct Hre as (_ & _ & Hl & _). unfold visit, add_file.
  rewrite Hl, !relisted_Abs.
  destruct (Readlink os2 _) as [linkPath|e]; [|reflexivity].
  rewrite relisted_Abs. reflexivity.
Qed.

Lemma relisted_walk (recur : walker) dir dirpath prefix recursive ignore list :
  forall st,
  walk toLowerU toUpperU os1 recur dir dirpath prefix recursive ignore list st
  = walk toLowerU toUpperU os2 recur dir dirpath prefix recursive ignore list st.
Proof.
  induction list as [|file rest IH]; intros st; [reflexivity|].
  simpl. rewrite relisted_visit.
  destruct (visit _ _ _ _ _ _ _ _ _ _ _) as [[st' [e|]]| |]; simpl; auto.
Qed.

Lemma relisted_findFiles fuel : forall dir prefix recursive ignore st,
  findFiles toLowerU toUpperU os1 fuel dir prefix recursive ignore st
  = findFiles toLowerU toUpperU os2 fuel dir prefix recursive ignore st.
Proof.
  induction fuel as [|fuel IH]; intros dir prefix recursive ignore st;
    [reflexivity|].
  rewrite !findFiles_S. cbv zeta.
  assert (Ha : absolutize os1 dir prefix = absolutize os2 dir prefix).
  { unfold absolutize. rewrite !relisted_Abs. reflexivity. }
  rewrite Ha. destruct Hre as (_ & Hs & _ & Hd). rewrite Hs.
  destruct (Stat os2 _) as [fi|e]; [|reflexivity].
  destruct (negb (fi_IsDir fi)).
  - rewrite relisted_walk. apply walk_ext. intros d s. apply IH.
  - specialize (Hd (fst (absolutize os2 dir prefix))). unfold same_listing in Hd.
    destruct (Readdir os1 _) as [l1|e1], (Readdir os2 _) as [l2|e2];
      try contradiction; [|congruence].
    destruct Hd as [HP HN]. rewrite (sort_byName_order l1 l2 HP HN).
    rewrite relisted_walk. apply walk_ext. intros d s. apply IH.
Qed.

End TwoSystems.

End Listing.

Section CanonicalPaths.

Variables toLowerU toUpperU : string -> string.
Variable os : OS.
Variable wd : string.
Hypothesis Getwd_ok : Getwd os = OK wd.
Hypothesis wd_abs : IsAbs wd = true.

Lemma IsAbs_inv p : IsAbs p = true -> exists t, p = String "/" t.
Proof.
  destruct p as [|c t]; [intros H; vm_compute in H; discriminate|].
  unfold IsAbs. cbn [HasPrefix].
  destruct (ascii_dec "/" c) as [<-|Hne]; [|discriminate].
  intros _. exists t. reflexivity.
Qed.

Lemma clean_step_rooted kept c :
  Forall plain kept -> Forall plain (clean_step true kept c).
Proof.
  intros Hk. unfold clean_step. repeat case_decide; subst; try assumption.
  - destruct kept as [|top below]; [constructor|].
    inversion Hk as [|? ? Ht Hb]; subst. case_decide; [|exact Hb].
    subst. destruct Ht as (_ & _ & Ht). contradiction.
  - constructor; [|exact Hk]. repeat split; assumption.
Qed.

Lemma clean_elems_rooted l : Forall plain (clean_elems true l).
Proof.
  unfold clean_elems. apply Forall_rev.
  assert (H : forall kept, Forall plain kept ->
                           Forall plain (fold_left (clean_step true) l kept)).
  { induction l as [|c l IH]; intros kept Hk; [exact Hk|].
    simpl. apply IH, clean_step_rooted, Hk. }
  apply H. constructor.
Qed.

Lemma Clean_canonical t : canonical (Clean (String "/" t)).
Proof.
  rewrite Clean_abs. eexists. split; [reflexivity|]. split.
  - apply clean_elems_rooted.
  - apply clean_elems_elems, split_slash_no_slash.
Qed.

Lemma Abs_canonical p : canonical (fst (Abs os p)).
Proof.
  unfold Abs. destruct (IsAbs p) eqn:E.
  - apply IsAbs_inv in E as [t ->]. apply Clean_canonical.
  - rewrite Getwd_ok. simpl. destruct (IsAbs_inv _ wd_abs) as [t ->].
    unfold Join. case_decide; [discriminate|].
    change (String "/" t ++ "/" ++ p) with (String "/" (t ++ "/" ++ p)).
    apply Clean_canonical.
Qed.

Lemma canonical_add dir prefix file assetPath assetName st st' e :
  add_file toLowerU toUpperU os dir prefix file assetPath assetName st = Ret (st', e) ->
  Forall (fun a => canonical (Path a)) (toc st) ->
  Forall (fun a => canonical (Path a)) (toc st').
Proof.
  unfold add_file. case_decide as Hn.
  { intros H. inversion H; subst. auto. }
  destruct (safeFunctionName toLowerU toUpperU _ (knownFuncs st))
    as [[f known]| |]; try discriminate.
  simpl. pose proof (Abs_canonical assetPath) as Hc.
  destruct (Abs os assetPath) as [path [e1|]]; intros H; inversion H; subst;
    clear H; simpl; intros Ht; [exact Ht|].
  apply Forall_app. split; [exact Ht|]. constructor; [exact Hc|constructor].
Qed.

End CanonicalPaths.

Section Flat.

Variables toLowerU toUpperU : string -> string.
Variable os : OS.

Lemma visit_flat (recur recur' : walker) dir dirpath prefix ignore file st :
  fi_ModeSymlink file = false ->
  visit toLowerU toUpperU os recur dir dirpath prefix false ignore file st
  = visit toLowerU toUpperU os recur' dir dirpath prefix false ignore file st /\
  visit toLowerU toUpperU os recur dir dirpath prefix false ignore file st
  <> OutOfFuel.
Proof.
  intros Hl. unfold visit. rewrite Hl.
  destruct (ignoring ignore _); [split; [reflexivity|discriminate]|].
  destruct (fi_IsDir file); [split; [reflexivity|discriminate]|].
  split; [reflexivity|]. unfold add_file. cbv zeta. case_decide; [congruence|].
  destruct (safeFunctionName _ _ _ _) as [[f known]| |] eqn:Es; simpl.
  - destruct (Abs os _) as [path [e|]]; discriminate.
  - discriminate.
  - unfold safeFunctionName, candidate in Es.
    destruct (scan toUpperU false _); discriminate.
Qed.

Lemma walk_flat (recur recur' : walker) dir dirpath prefix ignore list :
  Forall (fun f => fi_ModeSymlink f = false) list ->
  forall st,
  walk toLowerU toUpperU os recur dir dirpath prefix false ignore list st
  = walk toLowerU toUpperU os recur' dir dirpath prefix false ignore list st /\
  walk toLowerU toUpperU os recur dir dirpath prefix false ignore list st
  <> OutOfFuel.
Proof.
  induction 1 as [|file rest Hf Hr IH]; intros st; [split; [reflexivity|discriminate]|].
  simpl. destruct (visit_flat recur recur' dir dirpath prefix ignore file st Hf)
    as [He Hn].
  rewrite <- He.
  destruct (visit toLowerU toUpperU os recur _ _ _ _ _ _ _) as [[st' [e|]]| |];
    simpl; try (split; [reflexivity|discriminate]).
  - apply IH.
  - contradiction.
Qed.

End Flat.

Section Inputs.

Variables toLowerU toUpperU : string -> string.
Variable os : OS.

Lemma Translate_loop_app_eq fuel prefix ignore inputs1 inputs2 : forall st,
  Translate_loop toLowerU toUpperU os fuel prefix ignore (inputs1 ++ inputs2) st
  = match Translate_loop toLowerU toUpperU os fuel prefix ignore inputs1 st with
    | Ret (st1, None) =>
        Translate_loop toLowerU toUpperU os fuel prefix ignore inputs2 st1
    | other => other
    end.
Proof.
  induction inputs1 as [|input rest IH]; intros st; [reflexivity|].
  simpl. destruct (findFiles _ _ _ _ _ _ _ _ _) as [[st1 [e|]]| |]; simpl;
    try reflexivity.
  apply IH.
Qed.

End Inputs.

Section ByName.

Lemma index_Some v i x :
  index v i = Ret x <-> 0 <= i /\ v !! Z.to_nat i = Some x.
Proof.
  unfold index. destruct (Z.leb_spec 0 i) as [Hi|Hi].
  - destruct (v !! Z.to_nat i) as [y|].
    + split; [intros [= ->]; split; [exact Hi|reflexivity]|intros [_ [= ->]]; reflexivity].
    + split; [discriminate|intros [_ H']; discriminate].
  - split; [discriminate|lia].
Qed.

Lemma index_range v i :
  (exists x, index v i = Ret x) <-> 0 <= i < byName_Len v.
Proof.
  unfold byName_Len. split.
  - intros [x H]. apply index_Some in H as [H0 H].
    apply lookup_lt_Some in H. lia.
  - intros H. destruct (lookup_lt_is_Some_2 v (Z.to_nat i)) as [x Hx]; [lia|].
    exists x. apply index_Some. split; [lia|exact Hx].
Qed.

Lemma index_not_out_of_fuel v i : index v i <> OutOfFuel.
Proof.
  unfold index. destruct (0 <=? i); [|discriminate].
  destruct (v !! Z.to_nat i); discriminate.
Qed.

Lemma insert_perm (x b : FileInfo) v : forall j,
  v !! j = Some b -> Permutation (x :: v) (b :: <[j := x]> v).
Proof.
  induction v as [|y t IH]; intros j H; [destruct j; discriminate|].
  destruct j as [|j]; simpl in *.
  - inversion H; subst. apply perm_swap.
  - rewrite perm_swap. rewrite (IH _ H). apply perm_swap.
Qed.

Lemma swap_perm (v : list FileInfo) : forall i j a b,
  v !! i = Some a -> v !! j = Some b ->
  Permutation v (<[j := a]> (<[i := b]> v)).
Proof.
  induction v as [|x t IH]; intros i j a b Hi Hj; [destruct i; discriminate|].
  destruct i as [|i], j as [|j]; simpl in *.
  - inversion Hi; inversion Hj; subst. reflexivity.
  - inversion Hi; subst. apply insert_perm. exact Hj.
  - inversion Hj; subst. rewrite (insert_perm b a t i Hi). reflexivity.
  - constructor. apply IH; assumption.
Qed.

Lemma swap_lookup (v : list FileInfo) i j a b :
  v !! i = Some a -> v !! j = Some b ->
  <[j := a]> (<[i := b]> v) !! i = Some b /\
  <[j := a]> (<[i := b]> v) !! j = Some a.
Proof.
  intros Hi Hj. pose proof (lookup_lt_Some _ _ _ Hi) as Li.
  pose proof (lookup_lt_Some _ _ _ Hj) as Lj. split.
  - destruct (decide (j = i)) as [->|Hne].
    + rewrite list_lookup_insert_eq by (rewrite length_insert; exact Li).
      congruence.
    + rewrite list_lookup_insert_ne by exact Hne.
      apply list_lookup_insert_eq. exact Li.
  - apply list_lookup_insert_eq. rewrite length_insert. exact Lj.
Qed.

Lemma swap_back (v : list FileInfo) i j a b :
  v !! i = Some a -> v !! j = Some b ->
  <[j := b]> (<[i := a]> (<[j := a]> (<[i := b]> v))) = v.
Proof.
  intros Hi Hj. apply list_eq. intros k.
  pose proof (lookup_lt_Some _ _ _ Hi) as Li.
  pose proof (lookup_lt_Some _ _ _ Hj) as Lj.
  destruct (decide (j = k)) as [->|Hjk].
  { rewrite list_lookup_insert_eq by (rewrite !length_insert; exact Lj).
    symmetry. exact Hj. }
  rewrite list_lookup_insert_ne by exact Hjk.
  destruct (decide (i = k)) as [->|Hik].
  { rewrite list_lookup_insert_eq by (rewrite !length_insert; exact Li).
    symmetry. exact Hi. }
  rewrite !list_lookup_insert_ne by assumption. reflexivity.
Qed.

Lemma byName_Less_irrefl a : byName_Less a a = false.
Proof.
  destruct (byName_Less a a) eqn:E; [|reflexivity].
  pose proof (name_le_total _ _ E) as H. unfold name_le in H. congruence.
Qed.

Lemma byName_Less_trans a b c :
  byName_Less a b = true -> byName_Less b c = true -> byName_Less a c = true.
Proof.
  intros Hab Hbc. destruct (byName_Less a c) eqn:E; [reflexivity|].
  pose proof (name_le_trans c a b E (name_le_total _ _ Hab)) as H.
  unfold name_le in H. congruence.
Qed.

Lemma sorted_lookup (l : list FileInfo) :
  StronglySorted name_le l ->
  forall i j a b, (i < j)%nat -> l !! i = Some a -> l !! j = Some b -> name_le a b.
Proof.
  induction 1 as [|x l Hs IH Hf]; intros i j a b Hij Hi Hj;
    [destruct i; discriminate|].
  destruct j as [|j]; [lia|]. simpl in Hj. destruct i as [|i]; simpl in Hi.
  - inversion Hi; subst. rewrite List.Forall_forall in Hf. apply Hf.
    apply list_elem_of_In. eapply list_elem_of_lookup_2. exact Hj.
  - eapply (IH i j); [lia|exact Hi|exact Hj].
Qed.

End ByName.

Section Loop.

Variables toLowerU toUpperU : string -> string.
Variable os : OS.

Lemma walk_app (recur : walker) dir dirpath prefix recursive ignore l1 l2 :
  forall st,
  walk toLowerU toUpperU os recur dir dirpath prefix recursive ignore (l1 ++ l2) st
  = match walk toLowerU toUpperU os recur dir dirpath prefix recursive ignore l1 st with
    | Ret (st1, None) =>
        walk toLowerU toUpperU os recur dir dirpath prefix recursive ignore l2 st1
    | other => other
    end.
Proof.
  induction l1 as [|file rest IH]; intros st; [reflexivity|].
  simpl. destruct (visit _ _ _ _ _ _ _ _ _ _ _) as [[st1 [e|]]| |]; simpl;
    try reflexivity.
  apply IH.
Qed.

End Loop.

Lemma HasPrefix_drop p : forall s,
  HasPrefix s p = true -> s = p ++ string_drop (len p) s.
Proof.
  induction p as [|a p IH]; intros s H; [reflexivity|].
  destruct s as [|b s]; [discriminate|]. cbn [HasPrefix] in H.
  destruct (ascii_dec a b) as [<-|]; [|discriminate].
  change (String a s = String a (p ++ string_drop (len p) s)).
  f_equal. apply IH, H.
Qed.

Lemma leading_slash_drop s :
  leading_slash s = true -> s = "/" ++ string_drop 1 s.
Proof.
  destruct s as [|c s]; [discriminate|]. unfold leading_slash.
  destruct (ascii_dec c "/") as [->|]; [|discriminate]. reflexivity.
Qed.

(** ** [safeFunctionName] (lines 237-270) *)

(** X1. What [safeFunctionName] returns is an identifier: it is not
    empty, its bytes are ASCII letters, digits and [_], and the first
    one is not a digit.  The counters of [knownFuncs] are not
    negative, as they are in every run. *)
Theorem safeFunctionName_valid (toLowerU toUpperU : string -> string)
    (name : string) (known : gmap string Z) (f : string) (known' : gmap string Z) :
  counters_nonneg known ->
  safeFunctionName toLowerU toUpperU name known = Ret (f, known') ->
  valid_ident f.
Proof.
  intros Hk. unfold safeFunctionName.
  destruct (candidate toLowerU toUpperU name) as [id| |] eqn:Ec; try discriminate.
  simpl. unfold disambiguate.
  pose proof (candidate_valid toLowerU toUpperU _ _ Ec) as Hv.
  destruct (known !! id) as [n|] eqn:En; intros H; inversion H; subst; [|exact Hv].
  apply valid_ident_app; [exact Hv|]. apply itoa_digits. exact (Hk _ _ En).
Qed.

Lemma safeFunctionName_valid_witness :
  safeFunctionName ascii_only ascii_only "9-lives.txt" ∅
    = Ret ("_9LivesTxt", <["_9LivesTxt" := 2]> ∅) /\
  valid_ident "_9LivesTxt".
Proof.
  split; [vm_compute; reflexivity|].
  apply (safeFunctionName_valid ascii_only ascii_only "9-lives.txt" ∅
           "_9LivesTxt" (<["_9LivesTxt" := 2]> ∅)).
  - intros b n H. rewrite lookup_empty in H. discriminate.
  - vm_compute. reflexivity.
Defined.

(** X2. A name that is an identifier in lower case already, made of
    [a-z], [0-9] and [_] and not beginning with a digit, is returned
    as it is the first time it is met, and is registered with the
    counter 2. *)
Theorem safeFunctionName_fixed (toLowerU toUpperU : string -> string)
    (c : ascii) (r : string) (known : gmap string Z) :
  string_forallb spec_class (String c r) = true ->
  is_digit c = false ->
  known !! String c r = None ->
  safeFunctionName toLowerU toUpperU (String c r) known
  = Ret (String c r, <[String c r := 2]> known).
Proof.
  intros Hs Hd Hk. unfold safeFunctionName, candidate.
  rewrite ToLower_spec_class, scan_spec_class by exact Hs.
  unfold unicode_IsDigit_byte. rewrite Hd. simpl.
  unfold disambiguate. rewrite Hk. reflexivity.
Qed.

Lemma safeFunctionName_fixed_witness :
  safeFunctionName ascii_only ascii_only "main_test" ∅
  = Ret ("main_test", <["main_test" := 2]> ∅).
Proof.
  apply (safeFunctionName_fixed ascii_only ascii_only "m" "ain_test" ∅).
  - reflexivity.
  - reflexivity.
  - apply lookup_empty.
Defined.

(** X3. On an ASCII name the function panics exactly when no byte of
    the name is a letter, a digit or [_]; the empty name is one of
    them. *)
Theorem safeFunctionName_panics_iff (toLowerU toUpperU : string -> string)
    (name : string) (known : gmap string Z) :
  isASCII name = true ->
  (safeFunctionName toLowerU toUpperU name known = Panic <->
   string_forallb regFuncName_Match name = true).
Proof.
  intros Ha. unfold safeFunctionName, candidate, ToLower. rewrite Ha.
  split.
  - intros H. destruct (string_forallb regFuncName_Match name) eqn:E; [reflexivity|].
    exfalso. rewrite <- string_map_lower_Match in E.
    apply (scan_nonempty toUpperU _ false) in E.
    destruct (scan toUpperU false (string_map lower_byte name)); [congruence|].
    discriminate.
  - intros H. rewrite <- string_map_lower_Match in H.
    rewrite scan_all_outside by exact H. reflexivity.
Qed.

Lemma safeFunctionName_panics_iff_witness :
  safeFunctionName ascii_only ascii_only "../.." ∅ = Panic <->
  string_forallb regFuncName_Match "../.." = true.
Proof.
  apply (safeFunctionName_panics_iff ascii_only ascii_only "../.." ∅).
  reflexivity.
Defined.

(** X4. In an ASCII name it does not matter which bytes outside
    [a-zA-Z0-9_] separate two parts, nor how many: one separator gives
    the same identifier as another one, and two in a row the same as
    one. *)
Theorem separators_interchangeable (toLowerU toUpperU : string -> string)
    (a b : string) (c c' : ascii) :
  isASCII (a ++ String c (String c' b)) = true ->
  regFuncName_Match c = true -> regFuncName_Match c' = true ->
  candidate toLowerU toUpperU (a ++ String c b)
    = candidate toLowerU toUpperU (a ++ String c' b) /\
  candidate toLowerU toUpperU (a ++ String c (String c' b))
    = candidate toLowerU toUpperU (a ++ String c b).
Proof.
  intros Ha Hc Hc'. unfold isASCII in Ha.
  rewrite string_forallb_app in Ha. simpl in Ha.
  apply andb_true_iff in Ha as [Ha Hb].
  apply andb_true_iff in Hb as [Hac Hb]. apply andb_true_iff in Hb as [Hac' Hb].
  assert (H1 : isASCII (a ++ String c b) = true).
  { unfold isASCII. rewrite string_forallb_app. simpl.
    rewrite Ha, Hac, Hb. reflexivity. }
  assert (H2 : isASCII (a ++ String c' b) = true).
  { unfold isASCII. rewrite string_forallb_app. simpl.
    rewrite Ha, Hac', Hb. reflexivity. }
  assert (H3 : isASCII (a ++ String c (String c' b)) = true).
  { unfold isASCII. rewrite string_forallb_app. simpl.
    rewrite Ha, Hac, Hac', Hb. reflexivity. }
  rewrite !candidate_ascii by assumption.
  rewrite !string_map_app. simpl string_map. rewrite !scan_app.
  rewrite !scan_outside by (rewrite lower_byte_Match; assumption).
  split; reflexivity.
Qed.

Lemma separators_interchangeable_witness :
  candidate ascii_only ascii_only "my-file" = candidate ascii_only ascii_only "my.file" /\
  candidate ascii_only ascii_only "my-.file" = candidate ascii_only ascii_only "my-file".
Proof.
  apply (separators_interchangeable ascii_only ascii_only "my" "file" "-" ".");
    reflexivity.
Defined.

(** X5. If no sanitized name ends in a decimal digit, the identifiers
    that successive calls return, from the empty [knownFuncs], are
    pairwise distinct. *)
Theorem sanitize_all_unique (toLowerU toUpperU : string -> string)
    (names bases : list string) :
  Forall2 (fun n b => candidate toLowerU toUpperU n = Ret b) names bases ->
  Forall (fun b => ends_digit b = false) bases ->
  Z.of_nat (length names) < 2 ^ 63 - 1 ->
  exists ids known',
    sanitize_all toLowerU toUpperU names ∅ = Ret (ids, known') /\
    List.NoDup ids.
Proof.
  intros HF Hd Hlen.
  destruct (sanitize_all_expected toLowerU toUpperU names bases [] ∅ HF)
    as (known' & Hrun & _).
  - simpl. lia.
  - intros b. apply lookup_empty.
  - exists (expected_ids [] bases), known'. split; [exact Hrun|].
    apply expected_ids_NoDup, Hd.
Qed.

Lemma sanitize_all_unique_witness :
  exists ids known',
    sanitize_all ascii_only ascii_only ["a-b"; "a.b"; "c"] ∅ = Ret (ids, known') /\
    List.NoDup ids.
Proof.
  apply (sanitize_all_unique ascii_only ascii_only
           ["a-b"; "a.b"; "c"] ["aB"; "aB"; "c"]).
  - repeat constructor.
  - repeat constructor.
  - vm_compute. reflexivity.
Defined.

(** ** The catalog of [Translate] (lines 23-39, 204-225) *)

(** X6. When the working directory can be read, every [Func] of a
    catalog is an identifier; the catalog is shorter than the range of
    [int]. *)
Theorem Translate_funcs_valid (toLowerU toUpperU : string -> string) (os : OS)
    (wd : string) (fuel : nat) (prefix : string) (ignore : list Regexp)
    (inputs : list InputConfig) (catalog : list Asset) :
  Getwd os = OK wd ->
  Translate toLowerU toUpperU os fuel prefix ignore inputs = Ret (OK catalog) ->
  Z.of_nat (length catalog) < 2 ^ 63 - 2 ->
  Forall (fun a => valid_ident (Func a)) catalog.
Proof.
  intros Hwd. unfold Translate.
  destruct (Translate_loop _ _ _ _ _ _ _ _) as [[st [e|]]| |] eqn:E;
    simpl; try discriminate.
  intros H Hlen. inversion H; subst. clear H.
  apply (Translate_loop_preserves toLowerU toUpperU os ignore funcs_ok) in E.
  - exact (proj2 (E Hlen)).
  - intros p st0 H0. exact H0.
  - intros d dirpath prefix' file st0 st1 e1 _.
    apply (funcs_ok_add toLowerU toUpperU os wd Hwd).
  - intros _. split; [|constructor].
    intros b n. unfold empty_state. simpl. rewrite lookup_empty. discriminate.
Qed.

Lemma Translate_funcs_valid_witness :
  exists catalog,
    Translate_fs collide "/d" [] [mkInput "/d" false] 2 = Ret (OK catalog) /\
    map Func catalog = ["aB"; "aB2"; "aB2"] /\
    Forall (fun a => valid_ident (Func a)) catalog.
Proof.
  eexists. split; [vm_compute; reflexivity|]. split; [reflexivity|].
  apply (Translate_funcs_valid ascii_only ascii_only (TreeFS.to_OS collide) "/"
           2 "/d" [] [mkInput "/d" false]).
  - reflexivity.
  - vm_compute. reflexivity.
  - vm_compute. reflexivity.
Defined.

(** X7. When the working directory can be read, the [Func] fields of a
    catalog are what [safeFunctionName] returns for its [Name] fields,
    called in the order of the catalog and starting from the empty
    [knownFuncs]: no call is made for a name that is not in the
    catalog. *)
Theorem Translate_funcs_replay (toLowerU toUpperU : string -> string) (os : OS)
    (wd : string) (fuel : nat) (prefix : string) (ignore : list Regexp)
    (inputs : list InputConfig) (catalog : list Asset) :
  Getwd os = OK wd ->
  Translate toLowerU toUpperU os fuel prefix ignore inputs = Ret (OK catalog) ->
  exists known,
    sanitize_all toLowerU toUpperU (map Name catalog) ∅
    = Ret (map Func catalog, known).
Proof.
  intros Hwd.
  exact (Translate_replays toLowerU toUpperU os wd Hwd fuel prefix ignore inputs
           catalog).
Qed.

Lemma Translate_funcs_replay_witness :
  exists catalog,
    Translate_fs collide "/d" [] [mkInput "/d" false] 2 = Ret (OK catalog) /\
    map Name catalog = ["a-b"; "a-b2"; "a.b"] /\
    exists known,
      sanitize_all ascii_only ascii_only (map Name catalog) ∅
      = Ret (map Func catalog, known).
Proof.
  eexists. split; [vm_compute; reflexivity|]. split; [reflexivity|].
  apply (Translate_funcs_replay ascii_only ascii_only (TreeFS.to_OS collide) "/"
           2 "/d" [] [mkInput "/d" false]).
  - reflexivity.
  - vm_compute. reflexivity.
Defined.

(** X8. When the working directory can be read and no name of the
    catalog is sanitized to a string that ends in a decimal digit, the
    [Func] fields of the catalog are pairwise distinct. *)
Theorem Translate_funcs_distinct (toLowerU toUpperU : string -> string) (os : OS)
    (wd : string) (fuel : nat) (prefix : string) (ignore : list Regexp)
    (inputs : list InputConfig) (catalog : list Asset) :
  Getwd os = OK wd ->
  Translate toLowerU toUpperU os fuel prefix ignore inputs = Ret (OK catalog) ->
  Forall (fun a => forall b, candidate toLowerU toUpperU (Name a) = Ret b ->
                             ends_digit b = false) catalog ->
  Z.of_nat (length catalog) < 2 ^ 63 - 1 ->
  List.NoDup (map Func catalog).
Proof.
  intros Hwd H Hd Hlen.
  destruct (Translate_replays toLowerU toUpperU os wd Hwd _ _ _ _ _ H)
    as [known Hr].
  destruct (sanitize_all_bases toLowerU toUpperU _ _ _ Hr) as [bases HF].
  destruct (sanitize_all_expected toLowerU toUpperU _ bases [] ∅ HF)
    as (known' & Hrun & _).
  - simpl. rewrite length_map. lia.
  - intros b. apply lookup_empty.
  - rewrite Hrun in Hr. injection Hr as Hids Hk. rewrite <- Hids.
    apply expected_ids_NoDup.
    clear - HF Hd. revert bases HF.
    induction catalog as [|a l IH]; intros bases HF.
    + inversion HF. constructor.
    + inversion HF as [|? b ? bs Hc HF']; subst. inversion Hd; subst.
      constructor; [auto|]. apply IH; assumption.
Qed.

Lemma Translate_funcs_distinct_witness :
  exists catalog,
    Translate_fs (scenario scenario_entries) "/data" [] [mkInput "/data" true] 3
      = Ret (OK catalog) /\
    map Func catalog = ["aTxt"; "bTxt"; "subCTxt"] /\
    List.NoDup (map Func catalog).
Proof.
  eexists. split; [vm_compute; reflexivity|]. split; [reflexivity|].
  apply (Translate_funcs_distinct ascii_only ascii_only
           (TreeFS.to_OS (scenario scenario_entries)) "/data"
           3 "/data" [] [mkInput "/data" true]).
  - reflexivity.
  - vm_compute. reflexivity.
  - repeat constructor; intros b Hb; vm_compute in Hb; injection Hb as Hb; subst b;
      reflexivity.
  - vm_compute. reflexivity.
Defined.

(** X9. When the working directory is given by an absolute path, every
    [Path] of a catalog is absolute and in its shortest form: [/] and
    then elements that are not empty, not [.] and not [..], with one
    separator between them. *)
Theorem Translate_paths_canonical (toLowerU toUpperU : string -> string) (os : OS)
    (wd : string) (fuel : nat) (prefix : string) (ignore : list Regexp)
    (inputs : list InputConfig) (catalog : list Asset) :
  Getwd os = OK wd -> IsAbs wd = true ->
  Translate toLowerU toUpperU os fuel prefix ignore inputs = Ret (OK catalog) ->
  Forall (fun a => canonical (Path a)) catalog.
Proof.
  intros Hwd Habs. unfold Translate.
  destruct (Translate_loop _ _ _ _ _ _ _ _) as [[st [e|]]| |] eqn:E;
    simpl; try discriminate.
  intros H. inversion H; subst. clear H.
  apply (Translate_loop_preserves toLowerU toUpperU os ignore
           (fun st => Forall (fun a => canonical (Path a)) (toc st))) in E.
  - exact E.
  - intros p st0 H0. exact H0.
  - intros d dirpath prefix' file st0 st1 e1 _.
    apply (canonical_add toLowerU toUpperU os wd Hwd Habs).
  - constructor.
Qed.

Lemma Translate_paths_canonical_witness :
  exists catalog,
    Translate_fs (scenario scenario_entries) "" [] [mkInput "." true] 3
      = Ret (OK catalog) /\
    map Path catalog = ["/data/a.txt"; "/data/b.txt"; "/data/sub/c.txt"] /\
    Forall (fun a => canonical (Path a)) catalog.
Proof.
  eexists. split; [vm_compute; reflexivity|]. split; [reflexivity|].
  apply (Translate_paths_canonical ascii_only ascii_only
           (TreeFS.to_OS (scenario scenario_entries)) "/data"
           3 "" [] [mkInput "." true]).
  - reflexivity.
  - reflexivity.
  - vm_compute. reflexivity.
Defined.

(** ** [findFiles] (lines 128-229) *)

(** X10. An invocation that returns, with an error or without, has only
    added to the shared state: the catalog it leaves begins with the
    catalog it found, every path that was marked is marked, every base
    that was registered is registered.  If its directory could be
    examined and is a directory, that directory is marked. *)
Theorem findFiles_grows (toLowerU toUpperU : string -> string) (os : OS)
    (fuel : nat) (dir prefix : string) (recursive : bool) (ignore : list Regexp)
    (st st' : State) (e : option error) :
  findFiles toLowerU toUpperU os fuel dir prefix recursive ignore st = Ret (st', e) ->
  grows st st' /\
  (forall fi, Stat os (fst (absolutize os dir prefix)) = OK fi ->
              fi_IsDir fi = true ->
              is_visited (fst (absolutize os dir prefix)) st' = true).
Proof.
  intros H. split.
  { eapply findFiles_grows_from; [exact H|apply grows_refl]. }
  intros fi Hs Hd. destruct fuel as [|fuel]; [discriminate|].
  rewrite findFiles_S in H. cbv zeta in H. rewrite Hs, Hd in H. simpl in H.
  set (dirpath := fst (absolutize os dir prefix)) in *.
  assert (Hm : is_visited dirpath (mark_visited dirpath st) = true).
  { apply is_visited_mark. left. reflexivity. }
  destruct (Readdir os dirpath) as [list|e1].
  - assert (Hg : grows (mark_visited dirpath st) st').
    { revert H. generalize (mark_visited dirpath st). intros s H.
      eapply (walk_preserves toLowerU toUpperU os ignore (grows s));
        [| | |exact H|apply grows_refl].
      - intros p s1 Hs1. eapply grows_trans; [exact Hs1|apply grows_mark].
      - intros d dp prefix' file s1 s2 e1 _ Ha Hs1.
        eapply grows_trans; [exact Hs1|]. eapply grows_add. exact Ha.
      - intros d s1 s2 e1 Hf. eapply findFiles_grows_from. exact Hf. }
    apply Hg. exact Hm.
  - inversion H; subst. exact Hm.
Qed.

Lemma findFiles_grows_witness :
  exists st',
    findFiles ascii_only ascii_only (TreeFS.to_OS icons) 4 "/data" "/data" true []
      empty_state = Ret (st', None) /\
    grows empty_state st' /\
    is_visited "/data" st' = true.
Proof.
  eexists. split; [vm_compute; reflexivity|].
  edestruct (findFiles_grows ascii_only ascii_only (TreeFS.to_OS icons) 4
               "/data" "/data" true [] empty_state) as [Hg Hv].
  - vm_compute. reflexivity.
  - split; [exact Hg|]. apply (Hv (mkFileInfo "data" true false)); reflexivity.
Defined.

(** X11. The order in which the system lists a directory does not
    show: two systems that differ only in the order of their listings,
    no directory holding two entries of one name, give the same
    result. *)
Theorem findFiles_listing_order (toLowerU toUpperU : string -> string)
    (os1 os2 : OS) (fuel : nat) (dir prefix : string) (recursive : bool)
    (ignore : list Regexp) (st : State) :
  relisted os1 os2 ->
  findFiles toLowerU toUpperU os1 fuel dir prefix recursive ignore st
  = findFiles toLowerU toUpperU os2 fuel dir prefix recursive ignore st.
Proof. intros H. apply relisted_findFiles. exact H. Qed.

Lemma findFiles_listing_order_witness :
  findFiles ascii_only ascii_only
    (one_dir "/d" [mkFileInfo "b.txt" false false; mkFileInfo "a.txt" false false])
    1 "/d" "" false [] empty_state
  = findFiles ascii_only ascii_only
      (one_dir "/d" [mkFileInfo "a.txt" false false; mkFileInfo "b.txt" false false])
      1 "/d" "" false [] empty_state.
Proof.
  apply findFiles_listing_order.
  split; [reflexivity|]. split; [reflexivity|]. split; [reflexivity|].
  intros p. simpl. case_decide as Hp; [|reflexivity]. split; [apply perm_swap|].
  simpl. constructor.
  - intros [Hin|[]]. discriminate.
  - constructor; [intros []|constructor].
Defined.

(** X12. Without recursion and without symbolic links in the listing
    one invocation does all the work: it returns or panics without
    calling itself, whatever the directory holds. *)
Theorem findFiles_flat (toLowerU toUpperU : string -> string) (os : OS)
    (dir prefix : string) (ignore : list Regexp) (st : State) :
  (forall fi, Stat os (fst (absolutize os dir prefix)) = OK fi ->
              fi_ModeSymlink fi = false) ->
  (forall list, Readdir os (fst (absolutize os dir prefix)) = OK list ->
                Forall (fun f => fi_ModeSymlink f = false) list) ->
  findFiles toLowerU toUpperU os 1 dir prefix false ignore st <> OutOfFuel /\
  forall fuel,
    findFiles toLowerU toUpperU os (S fuel) dir prefix false ignore st
    = findFiles toLowerU toUpperU os 1 dir prefix false ignore st.
Proof.
  intros Hs Hd.
  assert (H : forall fuel,
    findFiles toLowerU toUpperU os (S fuel) dir prefix false ignore st
      = findFiles toLowerU toUpperU os 1 dir prefix false ignore st /\
    findFiles toLowerU toUpperU os (S fuel) dir prefix false ignore st
      <> OutOfFuel).
  { intros fuel. rewrite !findFiles_S. cbv zeta.
    destruct (Stat os _) as [fi|e] eqn:Es; [|split; [reflexivity|discriminate]].
    destruct (negb (fi_IsDir fi)).
    - apply walk_flat. constructor; [|constructor]. apply (Hs fi). reflexivity.
    - destruct (Readdir os _) as [list|e] eqn:Er;
        [|split; [reflexivity|discriminate]].
      apply walk_flat. specialize (Hd list eq_refl).
      eapply Permutation_Forall; [apply sort_byName_perm|exact Hd]. }
  split; [apply (H O)|]. intros fuel. apply H.
Qed.

Lemma findFiles_flat_witness :
  findFiles ascii_only ascii_only (TreeFS.to_OS (scenario scenario_entries))
    1 "/data" "/data" false [] empty_state <> OutOfFuel /\
  forall fuel,
    findFiles ascii_only ascii_only (TreeFS.to_OS (scenario scenario_entries))
      (S fuel) "/data" "/data" false [] empty_state
    = findFiles ascii_only ascii_only (TreeFS.to_OS (scenario scenario_entries))
        1 "/data" "/data" false [] empty_state.
Proof.
  apply findFiles_flat.
  - intros fi H. vm_compute in H. injection H as H. subst fi. reflexivity.
  - intros list H. vm_compute in H. injection H as H. subst list. repeat constructor.
Defined.

(** ** The inputs of [Translate] (lines 34-39) *)

(** X13. The inputs are walked one after the other on one state: a
    list of inputs in two parts is the first part and then, if that
    gave no error, the second part on the state the first one left. *)
Theorem Translate_loop_app (toLowerU toUpperU : string -> string) (os : OS)
    (fuel : nat) (prefix : string) (ignore : list Regexp)
    (inputs1 inputs2 : list InputConfig) (st : State) :
  Translate_loop toLowerU toUpperU os fuel prefix ignore (inputs1 ++ inputs2) st
  = match Translate_loop toLowerU toUpperU os fuel prefix ignore inputs1 st with
    | Ret (st1, None) =>
        Translate_loop toLowerU toUpperU os fuel prefix ignore inputs2 st1
    | other => other
    end.
Proof. apply Translate_loop_app_eq. Qed.

(** X14. The loop of lines 34-39 ends at the first input whose walk
    returns an error, with that error and the state that walk left:
    the inputs after it are not looked at. *)
Theorem Translate_first_error (toLowerU toUpperU : string -> string) (os : OS)
    (fuel : nat) (prefix : string) (ignore : list Regexp)
    (inputs1 : list InputConfig) (input : InputConfig)
    (inputs2 : list InputConfig) (st0 st st' : State) (e : error) :
  Translate_loop toLowerU toUpperU os fuel prefix ignore inputs1 st0
    = Ret (st, None) ->
  findFiles toLowerU toUpperU os fuel (input_Path input) prefix
    (input_Recursive input) ignore st = Ret (st', Some e) ->
  Translate_loop toLowerU toUpperU os fuel prefix ignore
    (inputs1 ++ input :: inputs2) st0
  = Ret (st', Some e).
Proof.
  intros H1 H2. rewrite Translate_loop_app_eq, H1.
  simpl. rewrite H2. reflexivity.
Qed.

Lemma Translate_first_error_witness :
  exists st',
    Translate_loop ascii_only ascii_only (TreeFS.to_OS dangling) 5
      "/data/sub/z.txt" []
      [mkInput "/data" false; mkInput "/data/sub" true; mkInput "/data" true]
      empty_state
    = Ret (st', Some "Invalid file: /data/sub/z.txt").
Proof.
  eexists.
  refine (Translate_first_error ascii_only ascii_only (TreeFS.to_OS dangling) 5
            "/data/sub/z.txt" [] [mkInput "/data" false] (mkInput "/data/sub" true)
            [mkInput "/data" true] empty_state _ _ _ _ _).
  - vm_compute. reflexivity.
  - vm_compute. reflexivity.
Defined.

(** ** [byName] (lines 119-123) *)

(** X15. [Swap] exchanges two entries and nothing else: the result is
    a permutation of the same length, each of the two indices holds
    what the other one held, and a second [Swap] restores the slice. *)
Theorem byName_Swap_exchanges (v : list FileInfo) (i j : Z) (v' : list FileInfo) :
  byName_Swap v i j = Ret v' ->
  Permutation v v' /\ byName_Len v' = byName_Len v /\
  index v' i = index v j /\ index v' j = index v i /\
  byName_Swap v' i j = Ret v.
Proof.
  unfold byName_Swap. destruct (index v i) as [a| |] eqn:Ei; try discriminate.
  destruct (index v j) as [b| |] eqn:Ej; try discriminate.
  simpl. intros H. inversion H; subst; clear H.
  apply index_Some in Ei as [Hi0 Hi]. apply index_Some in Ej as [Hj0 Hj].
  destruct (swap_lookup v _ _ a b Hi Hj) as [Li Lj].
  assert (Ei' : index (<[Z.to_nat j := a]> (<[Z.to_nat i := b]> v)) i = Ret b).
  { apply index_Some. split; assumption. }
  assert (Ej' : index (<[Z.to_nat j := a]> (<[Z.to_nat i := b]> v)) j = Ret a).
  { apply index_Some. split; assumption. }
  split; [apply swap_perm; assumption|].
  split; [unfold byName_Len; rewrite !length_insert; reflexivity|].
  split; [exact Ei'|]. split; [exact Ej'|].
  rewrite Ei', Ej'. simpl. f_equal. apply swap_back; assumption.
Qed.

Lemma byName_Swap_exchanges_witness :
  Permutation
    [mkFileInfo "b" false false; mkFileInfo "a" false false; mkFileInfo "c" true false]
    [mkFileInfo "c" true false; mkFileInfo "a" false false; mkFileInfo "b" false false] /\
  byName_Swap
    [mkFileInfo "c" true false; mkFileInfo "a" false false; mkFileInfo "b" false false]
    0 2
  = Ret [mkFileInfo "b" false false; mkFileInfo "a" false false;
         mkFileInfo "c" true false].
Proof.
  destruct (byName_Swap_exchanges
    [mkFileInfo "b" false false; mkFileInfo "a" false false; mkFileInfo "c" true false]
    0 2
    [mkFileInfo "c" true false; mkFileInfo "a" false false; mkFileInfo "b" false false]
    eq_refl) as (Hp & _ & _ & _ & Hs).
  split; [exact Hp|exact Hs].
Defined.

(** X16. [Swap] and [Less] panic exactly when one of the two indices
    is out of range. *)
Theorem byName_index_panics (v : list FileInfo) (i j : Z) :
  (byName_Swap v i j = Panic <->
   ~ (0 <= i < byName_Len v /\ 0 <= j < byName_Len v)) /\
  (byName_Less_at v i j = Panic <->
   ~ (0 <= i < byName_Len v /\ 0 <= j < byName_Len v)).
Proof.
  pose proof (index_range v i) as Ri. pose proof (index_range v j) as Rj.
  pose proof (index_not_out_of_fuel v i) as Ni.
  pose proof (index_not_out_of_fuel v j) as Nj.
  unfold byName_Swap, byName_Less_at.
  destruct (index v i) as [a| |]; [|clear Ni|congruence].
  - destruct (index v j) as [b| |]; [|clear Nj|congruence]; simpl.
    + assert (Hr : 0 <= i < byName_Len v /\ 0 <= j < byName_Len v).
      { split; [apply Ri|apply Rj]; eauto. }
      split; (split; [discriminate|intros H; contradiction]).
    + assert (Hr : ~ (0 <= i < byName_Len v /\ 0 <= j < byName_Len v)).
      { intros [_ H]. apply Rj in H as [x Hx]. discriminate. }
      split; (split; [intros _; exact Hr|reflexivity]).
  - simpl.
    assert (Hr : ~ (0 <= i < byName_Len v /\ 0 <= j < byName_Len v)).
    { intros [H _]. apply Ri in H as [x Hx]. discriminate. }
    split; (split; [intros _; exact Hr|reflexivity]).
Qed.

Lemma byName_index_panics_witness :
  byName_Swap [mkFileInfo "a" false false] 0 1 = Panic.
Proof.
  apply (proj1 (byName_index_panics [mkFileInfo "a" false false] 0 1)).
  intros [_ [_ H]]. vm_compute in H. discriminate.
Defined.

(** X17. [Less] is a strict order on the names: no entry is less than
    itself, of two entries at most one is less than the other, and
    less than is transitive.  After sorting no entry is less than one
    that stands before it. *)
Theorem byName_Less_order (v : list FileInfo) (i j k : Z) :
  byName_Less_at v i i <> Ret true /\
  (byName_Less_at v i j = Ret true -> byName_Less_at v j i = Ret false) /\
  (byName_Less_at v i j = Ret true -> byName_Less_at v j k = Ret true ->
   byName_Less_at v i k = Ret true) /\
  (0 <= i <= j -> j < byName_Len (sort_byName v) ->
   byName_Less_at (sort_byName v) j i = Ret false).
Proof.
  unfold byName_Less_at. split; [|split; [|split]].
  - destruct (index v i) as [a| |]; simpl; try discriminate.
    rewrite byName_Less_irrefl. discriminate.
  - destruct (index v i) as [a| |], (index v j) as [b| |]; simpl; try discriminate.
    intros [= H]. f_equal. exact (name_le_total _ _ H).
  - destruct (index v i) as [a| |], (index v j) as [b| |], (index v k) as [c| |];
      simpl; try discriminate.
    intros [= H1] [= H2]. f_equal. exact (byName_Less_trans a b c H1 H2).
  - intros Hij Hj.
    destruct (proj2 (index_range (sort_byName v) i)) as [a Ha]; [lia|].
    destruct (proj2 (index_range (sort_byName v) j)) as [b Hb]; [lia|].
    rewrite Ha, Hb. simpl. f_equal.
    apply index_Some in Ha as [_ Ha]. apply index_Some in Hb as [_ Hb].
    destruct (decide (i = j)) as [->|Hne].
    + rewrite Ha in Hb. inversion Hb; subst. apply byName_Less_irrefl.
    + apply (sorted_lookup _ (sort_byName_sorted v) (Z.to_nat i) (Z.to_nat j));
        [lia|exact Ha|exact Hb].
Qed.

Lemma byName_Less_order_witness :
  byName_Less_at
    (sort_byName [mkFileInfo "b" false false; mkFileInfo "a" false false;
                  mkFileInfo "c" true false]) 2 0
  = Ret false.
Proof.
  apply (proj2 (proj2 (proj2 (byName_Less_order
           [mkFileInfo "b" false false; mkFileInfo "a" false false;
            mkFileInfo "c" true false] 0 2 0)))).
  - lia.
  - vm_compute. reflexivity.
Defined.

(** X18. The loop over a listing (line 164) stops at the first entry
    whose body returns an error, and gives that error: the entries
    after it are not visited. *)
Theorem walk_first_error (toLowerU toUpperU : string -> string) (os : OS)
    (recur : walker) (dir dirpath prefix : string) (recursive : bool)
    (ignore : list Regexp) (before : list FileInfo) (file : FileInfo)
    (after : list FileInfo) (st st1 st2 : State) (e : error) :
  walk toLowerU toUpperU os recur dir dirpath prefix recursive ignore before st
    = Ret (st1, None) ->
  visit toLowerU toUpperU os recur dir dirpath prefix recursive ignore file st1
    = Ret (st2, Some e) ->
  walk toLowerU toUpperU os recur dir dirpath prefix recursive ignore
    (before ++ file :: after) st
  = Ret (st2, Some e).
Proof.
  intros H1 H2. rewrite walk_app, H1. simpl. rewrite H2. reflexivity.
Qed.

Lemma walk_first_error_witness :
  exists st2,
    walk ascii_only ascii_only (TreeFS.to_OS (scenario scenario_entries))
      (fun _ _ => Panic) "/data" "/data" "/data/b.txt" true []
      [mkFileInfo "a.txt" false false; mkFileInfo "b.txt" false false;
       mkFileInfo "sub" true false] empty_state
    = Ret (st2, Some "Invalid file: /data/b.txt").
Proof.
  eexists.
  refine (walk_first_error ascii_only ascii_only
            (TreeFS.to_OS (scenario scenario_entries)) (fun _ _ => Panic)
            "/data" "/data" "/data/b.txt" true []
            [mkFileInfo "a.txt" false false] (mkFileInfo "b.txt" false false)
            [mkFileInfo "sub" true false] empty_state _ _ _ _ _).
  - vm_compute. reflexivity.
  - vm_compute. reflexivity.
Defined.

(** X20. When the path of a file begins with the prefix, the prefix and
    the name give the path back, with one [/] between them if the name
    lost one. *)
Theorem logical_name_restores_path (dir prefix : string) (file : FileInfo)
    (assetName : string) :
  HasPrefix assetName prefix = true ->
  exists sep, (sep = "" \/ sep = "/") /\
              assetName = prefix ++ sep ++ logical_name dir prefix file assetName.
Proof.
  intros H. unfold logical_name. rewrite H.
  pose proof (HasPrefix_drop prefix assetName H) as Hd.
  destruct (leading_slash (string_drop (len prefix) assetName)) eqn:E.
  - exists "/". split; [right; reflexivity|].
    rewrite <- (leading_slash_drop _ E). exact Hd.
  - exists "". split; [left; reflexivity|]. exact Hd.
Qed.

Lemma logical_name_restores_path_witness :
  exists sep, (sep = "" \/ sep = "/") /\
    "/data/icons/x.png"
    = "/data" ++ sep ++ logical_name "/data" "/data" (mkFileInfo "x.png" false false)
                          "/data/icons/x.png".
Proof.
  apply (logical_name_restores_path "/data" "/data" (mkFileInfo "x.png" false false)
           "/data/icons/x.png").
  reflexivity.
Defined.

